(** * Lab_2_4_LR2: linear regression, evaluation metrics and one-hot encoding

    A shallow embedding of [src/Lab_2_4_LR2.py] and the properties of its
    specification.

    Numeric model.  The Python code computes with NumPy [float64] arrays.
    Here numbers are the elements of an ordered field [F] with exact
    arithmetic, so rounding, overflow and underflow are outside the model.
    The one non-finite behaviour the code relies on, a division by zero that
    NumPy answers with [nan] or [inf] instead of raising, is kept: such a
    result is the value [NonFinite] of the type [np_float].

    Shapes.  A 2-D array of numbers with [m] rows and [n] columns is a
    matrix ['M[F]_(m, n)]; the target vector is a column ['cV[F]_m], so the
    data-model invariant "row count equals the length of the target" is part
    of the types.  The 1-D arrays stored on the regressor object
    ([coefficients]) are plain sequences, because their length is only known
    at run time and is checked when they meet a matrix. *)

From HB Require Import structures.
From Stdlib Require Import String.
From mathcomp Require Import boot order algebra.
From mathcomp Require Import ring lra.

Set Implicit Arguments.
Unset Strict Implicit.
Unset Printing Implicit Defensive.

Import Order.Theory GRing.Theory Num.Theory.

Local Open Scope ring_scope.

(** ** Python exceptions and results *)

Inductive exn : Type :=
| ValueError
| TypeError
| IndexError
| ZeroDivisionError
| LinAlgError.

Inductive result (A : Type) : Type :=
| Ret (a : A)
| Raise (e : exn).

Arguments Ret {A} a.
Arguments Raise {A} e.

Definition is_ret A (r : result A) : bool :=
  if r is Ret _ then true else false.

(** ** NumPy floats: finite values and the non-finite results [nan], [inf] *)

Section NpFloat.

Variable F : realFieldType.

Inductive np_float : Type :=
| Fin (x : F)
| NonFinite.

Definition lift1 (f : F -> F) (a : np_float) : np_float :=
  if a is Fin x then Fin (f x) else NonFinite.

Definition lift2 (f : F -> F -> F) (a b : np_float) : np_float :=
  match a, b with
  | Fin x, Fin y => Fin (f x y)
  | _, _ => NonFinite
  end.

Definition fadd : np_float -> np_float -> np_float := lift2 +%R.
Definition fsub : np_float -> np_float -> np_float := lift2 (fun x y => x - y).
Definition fsqr : np_float -> np_float := lift1 (fun x => x ^+ 2).
Definition fabs : np_float -> np_float := lift1 (fun x => `|x|).

(** [a / b] on [float64]: a zero divisor gives [nan] or [inf] (with a
    warning), never an exception.  No divisor of the program can itself be
    non-finite: they are array lengths and sums of finite numbers. *)
Definition fdiv (a b : np_float) : np_float :=
  match a, b with
  | Fin x, Fin y => if y == 0 then NonFinite else Fin (x / y)
  | _, _ => NonFinite
  end.

(** [np.sum] and [np.mean] of a 1-D array of floats. *)
Definition np_sum m (a : 'cV[np_float]_m) : np_float :=
  \big[fadd/Fin 0]_(i < m) a i ord0.

Definition np_mean m (a : 'cV[np_float]_m) : np_float :=
  fdiv (np_sum a) (Fin m%:R).

(** A finite array seen as an array of floats. *)
Definition fin_arr m (a : 'cV[F]_m) : 'cV[np_float]_m := map_mx Fin a.

(** A 1-D array as a Python sequence and back. *)
Definition seq_of_col k (v : 'cV[F]_k) : seq F := [seq v i ord0 | i <- enum 'I_k].

Definition col_of_seq k (s : seq F) : 'cV[F]_k := \col_(i < k) nth 0 s i.

End NpFloat.

Arguments NonFinite {F}.

(** ** The regressor object and the interpreter state

    [LinearRegressor] is the Python object: both attributes are [None]
    after [__init__].  A method runs in a [world]: the object it is called
    on, the position of NumPy's global random generator and what was
    printed.  An exception leaves the world as it was when it was raised. *)

Section Regressor.

Variable F : realFieldType.

(** [rand k] is the [k]-th draw of [np.random.rand], a number of [0, 1). *)
Variable rand : nat -> F.

Record LinearRegressor : Type := mkLR {
  coefficients : option (seq F);
  intercept : option F
}.

Definition init_regressor : LinearRegressor :=
  {| coefficients := None; intercept := None |}.

Record world : Type := World {
  self : LinearRegressor;
  rng : nat;
  stdout : seq (nat * np_float F)
}.

Definition py (A : Type) : Type := world -> result A * world.

Definition ret A (a : A) : py A := fun w => (Ret a, w).

Definition raise A (e : exn) : py A := fun w => (Raise e, w).

Definition bind A B (c : py A) (k : A -> py B) : py B :=
  fun w => match c w with
           | (Ret a, w') => k a w'
           | (Raise e, w') => (Raise e, w')
           end.

Definition lift_result A (r : result A) : py A := fun w => (r, w).

Notation "x <- c ;; k" := (bind c (fun x => k))
  (at level 100, c at next level, right associativity).
Notation "c ;;; k" := (bind c (fun _ => k))
  (at level 100, right associativity).

Definition set_intercept (b : F) : py unit := fun w =>
  (Ret tt, {| self := {| coefficients := coefficients (self w); intercept := Some b |};
              rng := rng w; stdout := stdout w |}).

Definition set_coefficients (c : seq F) : py unit := fun w =>
  (Ret tt, {| self := {| coefficients := Some c; intercept := intercept (self w) |};
              rng := rng w; stdout := stdout w |}).

(** Reading [self.intercept] as a number and [self.coefficients] as an
    array of [n] numbers; arithmetic on [None] is a [TypeError], arrays of
    different lengths do not combine ([ValueError]). *)
Definition get_intercept : py F := fun w =>
  (if intercept (self w) is Some b then Ret b else Raise TypeError, w).

Definition get_coefficients (n : nat) : py 'cV[F]_n := fun w =>
  (match coefficients (self w) with
   | Some c => if size c == n then Ret (col_of_seq n c) else Raise ValueError
   | None => Raise TypeError
   end, w).

(** [np.random.rand()] and [np.random.rand(k)]. *)
Definition np_random_rand : py F := fun w =>
  (Ret (rand (rng w)),
   {| self := self w; rng := (rng w).+1; stdout := stdout w |}).

Definition np_random_rand_n (k : nat) : py 'cV[F]_k := fun w =>
  (Ret (\col_(i < k) rand (rng w + i)%N),
   {| self := self w; rng := (rng w + k)%N; stdout := stdout w |}).

Definition print_mse (epoch : nat) (mse : np_float F) : py unit := fun w =>
  (Ret tt, {| self := self w; rng := rng w;
              stdout := rcons (stdout w) (epoch, mse) |}).

(** ** NumPy and Python primitives used by the regressor *)

(** [np.linalg.inv]: the inverse of a square matrix; over exact arithmetic
    the inversion fails, with [LinAlgError], exactly on singular matrices. *)
Definition np_linalg_inv k (A : 'M[F]_k) : result 'M[F]_k :=
  if A \in unitmx then Ret (invmx A) else Raise LinAlgError.

(** [np.insert(X, 0, 1, axis=1)] and [np.c_[np.ones((m, 1)), X]]. *)
Definition with_bias m n (X : 'M[F]_(m, n)) : 'M[F]_(m, 1 + n) :=
  row_mx (const_mx 1) X.

(** [np.r_[b, c]]. *)
Definition np_r_ n (b : F) (c : 'cV[F]_n) : 'cV[F]_(1 + n) :=
  col_mx (const_mx b) c.

(** Python's [a / b] on integers. *)
Definition py_div (a b : nat) : result F :=
  if b == 0%N then Raise ZeroDivisionError else Ret (a%:R / b%:R).

(** The feature argument of [fit] and [predict]: a 1-D array of [m] values
    (one feature) or a 2-D array with [m] rows. *)
Inductive features (m : nat) : nat -> Type :=
| Arr1D (x : 'cV[F]_m) : features m 1
| Arr2D n (X : 'M[F]_(m, n)) : features m n.

(** [if np.ndim(X) == 1: X = X.reshape(-1, 1)]. *)
Definition as_2d m n (X : features m n) : 'M[F]_(m, n) :=
  match X in features _ n0 return 'M[F]_(m, n0) with
  | Arr1D x => x
  | Arr2D _ X2 => X2
  end.

(** ** [LinearRegressor.fit_multiple] *)

Definition fit_multiple m n (X : 'M[F]_(m, 1 + n)) (y : 'cV[F]_m) : py unit :=
  G1 <- lift_result (np_linalg_inv (X^T *m X)) ;;
  let theta : 'cV[F]_(1 + n) := G1 *m X^T *m y in
  set_intercept (theta ord0 ord0) ;;;
  set_coefficients (seq_of_col (dsubmx theta)).

(** ** [LinearRegressor.fit_gradient_descent] *)

Definition history : Type := (seq (np_float F) * seq (seq F))%type.

Definition mean_squared m (error : 'cV[F]_m) : np_float F :=
  np_mean (fin_arr (map_mx (fun e => e ^+ 2) error)).

(** One pass through the body of [for epoch in range(iterations)]. *)
Definition gd_epoch m n (X : 'M[F]_(m, 1 + n)) (y : 'cV[F]_m)
    (learning_rate : F) (epoch : nat) (h : history) : py history :=
  b <- get_intercept ;;
  c <- get_coefficients n ;;
  let predictions := X *m np_r_ b c in
  let error := predictions - y in
  two_m <- lift_result (py_div 2 m) ;;
  let gradients : 'cV[F]_(1 + n) := two_m *: (X^T *m error) in
  b0 <- get_intercept ;;
  set_intercept (b0 - learning_rate * gradients ord0 ord0) ;;;
  c0 <- get_coefficients n ;;
  set_coefficients (seq_of_col (c0 - learning_rate *: dsubmx gradients)) ;;;
  b1 <- get_intercept ;;
  c1 <- get_coefficients n ;;
  let w_history := rcons h.2 (b1 :: seq_of_col c1) in
  let mse := mean_squared error in
  let loss_history := rcons h.1 mse in
  (if (epoch %% 100 == 0)%N then print_mse epoch mse else ret tt) ;;;
  ret (loss_history, w_history).

Fixpoint for_range (epochs : seq nat) (body : nat -> history -> py history)
    (h : history) : py history :=
  match epochs with
  | [::] => ret h
  | e :: es => h' <- body e h ;; for_range es body h'
  end.

Definition fit_gradient_descent m n (X : 'M[F]_(m, 1 + n)) (y : 'cV[F]_m)
    (learning_rate : F) (iterations : nat) : py history :=
  c <- np_random_rand_n n ;;
  set_coefficients (seq_of_col ((1 / 100) *: c)) ;;;
  b <- np_random_rand ;;
  set_intercept (b * (1 / 100)) ;;;
  for_range (iota 0 iterations) (gd_epoch X y learning_rate) ([::], [::]).

(** ** [LinearRegressor.fit] *)

Open Scope string_scope.

Definition known_method (method : string) : bool :=
  String.eqb method "least_squares" || String.eqb method "gradient_descent".

Definition fit m n (X : features m n) (y : 'cV[F]_m) (method : string)
    (learning_rate : F) (iterations : nat) : py (option history) :=
  if ~~ known_method method then raise _ ValueError
  else
    let X_with_bias := with_bias (as_2d X) in
    if String.eqb method "least_squares" then
      fit_multiple X_with_bias y ;;; ret None
    else
      h <- fit_gradient_descent X_with_bias y learning_rate iterations ;;
      ret (Some h).

Definition default_learning_rate : F := 1 / 100.
Definition default_iterations : nat := 1000.

Close Scope string_scope.

(** ** [LinearRegressor.predict] *)

Definition predict m n (X : features m n) : py 'cV[F]_m := fun w =>
  match coefficients (self w), intercept (self w) with
  | Some _, Some _ =>
      (b <- get_intercept ;;
       c <- get_coefficients n ;;
       ret (with_bias (as_2d X) *m np_r_ b c)) w
  | _, _ => (Raise ValueError, w)
  end.

End Regressor.

(** ** [evaluate_regression] *)

Section Evaluation.

Variable F : realFieldType.

(** [np.sqrt] on the finite non-negative numbers; on a negative number
    NumPy answers [nan]. *)
Variable sqrt : F -> F.

Definition np_sqrt (a : np_float F) : np_float F :=
  match a with
  | Fin x => if x < 0 then NonFinite else Fin (sqrt x)
  | NonFinite => NonFinite
  end.

(** Element-wise operations on arrays of floats. *)
Definition arr_sub m (a b : 'cV[np_float F]_m) : 'cV[np_float F]_m :=
  \col_(i < m) fsub (a i ord0) (b i ord0).

Definition arr_sub_scalar m (a : 'cV[np_float F]_m) (s : np_float F) :
    'cV[np_float F]_m :=
  map_mx (fun x => fsub x s) a.

Definition arr_sqr m (a : 'cV[np_float F]_m) : 'cV[np_float F]_m :=
  map_mx (@fsqr F) a.

Definition arr_abs m (a : 'cV[np_float F]_m) : 'cV[np_float F]_m :=
  map_mx (@fabs F) a.

(** The returned dictionary, with its three keys. *)
Record metrics : Type := Metrics {
  R2 : np_float F;
  RMSE : np_float F;
  MAE : np_float F
}.

Definition evaluate_regression m (y_true y_pred : 'cV[F]_m) : metrics :=
  let yt := fin_arr y_true in
  let yp := fin_arr y_pred in
  let ss_total := np_sum (arr_sqr (arr_sub_scalar yt (np_mean yt))) in
  let ss_residual := np_sum (arr_sqr (arr_sub yt yp)) in
  let r_squared := fsub (Fin 1) (fdiv ss_residual ss_total) in
  let rmse := np_sqrt (np_mean (arr_sqr (arr_sub yt yp))) in
  let mae := np_mean (arr_abs (arr_sub yt yp)) in
  {| R2 := r_squared; RMSE := rmse; MAE := mae |}.

End Evaluation.

(** ** [one_hot_encode]

    The entries of the array are values of an ordered type [V] (numbers or
    strings; [np.unique] sorts them).  [cast_int] is the conversion NumPy
    applies to the integer indicators when [np.hstack] joins them with the
    columns of the array. *)

Section NdArray.

Variable T : Type.

(** A 2-D array: its number of columns and its rows. *)
Record ndarray : Type := NdArray {
  ncols : nat;
  rows : seq (seq T)
}.

Definition nrows (A : ndarray) : nat := size (rows A).

Definition well_shaped (A : ndarray) : bool :=
  all (fun r => size r == ncols A) (rows A).

(** Arrays are objects of a heap; a reference is a position in it.  Every
    NumPy call of [one_hot_encode] builds a new array and none writes into
    an existing one. *)
Definition heap : Type := seq ndarray.
Definition ref : Type := nat.

Definition empty_array : ndarray := {| ncols := 0; rows := [::] |}.

Definition deref (h : heap) (r : ref) : ndarray := nth empty_array h r.

Definition alloc (h : heap) (A : ndarray) : ref * heap := (size h, rcons h A).

End NdArray.

Section Encoder.

Variable disp : Order.disp_t.
Variable V : orderType disp.
Variable cast_int : nat -> V.

Notation ndarray := (ndarray V).
Notation heap := (heap V).

(** NumPy's reading of an integer index on an axis of length [n]: a
    negative index counts from the end, an index out of range is an
    [IndexError]. *)
Definition norm_index (n : nat) (i : int) : option nat :=
  match i with
  | Posz k => if (k < n)%N then Some k else None
  | Negz k => if (k < n)%N then Some (n - k.+1)%N else None
  end.

(** The bound of the slices [[:, :i]] and [[:, i:]] on an axis of length
    [n]; slices clip and never fail. *)
Definition slice_bound (n : nat) (i : int) : nat :=
  match i with
  | Posz k => minn k n
  | Negz k => (n - k.+1)%N
  end.

(** [A[:, j]]. *)
Definition column (A : ndarray) (j : nat) : seq V :=
  [seq nth (cast_int 0) r j | r <- rows A].

(** [np.unique]: the distinct values, sorted. *)
Definition np_unique (s : seq V) : seq V := sort <=%O (undup s).

(** [np.delete(A, j, axis=1)]. *)
Definition np_delete (A : ndarray) (j : nat) : ndarray :=
  {| ncols := (ncols A).-1;
     rows := [seq take j r ++ drop j.+1 r | r <- rows A] |}.

(** The row of the indicator matrix for the value [v]:
    [(categorical_column == category).astype(int)] for every category. *)
Definition one_hot_row (unique_values : seq V) (v : V) : seq nat :=
  [seq nat_of_bool (v == category) | category <- unique_values].

(** The body of the loop, for one [index]. With no row at all the
    indicator array is 1-D and the code fails: at [one_hot[:, 1:]] when
    [drop_first] is set, at [np.hstack] otherwise. *)
Definition encode_column (drop_first : bool) (A : ndarray) (index : int) :
    result (ndarray * ndarray) :=
  match norm_index (ncols A) index with
  | None => Raise IndexError
  | Some j =>
      let categorical_column := column A j in
      let unique_values := np_unique categorical_column in
      if unique_values is [::] then
        Raise (if drop_first then IndexError else ValueError)
      else
        let one_hot := [seq one_hot_row unique_values v | v <- categorical_column] in
        let one_hot := if drop_first then [seq behead r | r <- one_hot] else one_hot in
        let width := if drop_first then (size unique_values).-1
                     else size unique_values in
        let deleted := np_delete A j in
        let b := slice_bound (ncols deleted) index in
        Ret (deleted,
             {| ncols := (b + width + (ncols deleted - b))%N;
                rows := [seq take b rh.1 ++ [seq cast_int x | x <- rh.2] ++ drop b rh.1
                        | rh <- zip (rows deleted) one_hot] |})
  end.

Fixpoint encode_loop (drop_first : bool) (indices : seq int) (xt : ref)
    (h : heap) : result ref * heap :=
  match indices with
  | [::] => (Ret xt, h)
  | index :: rest =>
      match encode_column drop_first (deref h xt) index with
      | Raise e => (Raise e, h)
      | Ret (deleted, stacked) =>
          let: (_, h1) := alloc h deleted in
          let: (xt', h2) := alloc h1 stacked in
          encode_loop drop_first rest xt' h2
      end
  end.

Definition one_hot_encode (X : ref) (categorical_indices : seq int)
    (drop_first : bool) (h : heap) : result ref * heap :=
  let: (X_transformed, h0) := alloc h (deref h X) in
  encode_loop drop_first (sort (fun i j => (j <= i)%R) categorical_indices)
    X_transformed h0.

End Encoder.


(** ** The gradient-descent recurrence, as the specification words it *)

Section GradientDescentSpec.

Variable F : realFieldType.
Variables (m n : nat) (X : 'M[F]_(m, 1 + n)) (y : 'cV[F]_m).
Variable learning_rate : F.

(** error = X . [intercept, coefficients] - y *)
Definition gd_error (theta : 'cV[F]_(1 + n)) : 'cV[F]_m := X *m theta - y.

(** gradient = (2/m) . X^T . error *)
Definition gd_gradient (theta : 'cV[F]_(1 + n)) : 'cV[F]_(1 + n) :=
  (2 / m%:R) *: (X^T *m gd_error theta).

Definition gd_step (theta : 'cV[F]_(1 + n)) : 'cV[F]_(1 + n) :=
  theta - learning_rate *: gd_gradient theta.

(** The parameters after [k] updates. *)
Definition gd_params (theta0 : 'cV[F]_(1 + n)) (k : nat) : 'cV[F]_(1 + n) :=
  iter k gd_step theta0.

(** The mean squared error of the predictions made with [theta]. *)
Definition mse (theta : 'cV[F]_(1 + n)) : F :=
  (\sum_(i < m) (gd_error theta i ord0) ^+ 2) / m%:R.


End GradientDescentSpec.

(** The object whose parameters are the vector [theta]. *)
Definition regressor_of (F : realFieldType) n (theta : 'cV[F]_(1 + n)) :
    LinearRegressor F :=
  {| coefficients := Some (seq_of_col (dsubmx theta));
     intercept := Some (theta ord0 ord0) |}.

(** The random initial parameters, drawn with the generator at position
    [k0]: the [n] coefficients first, the intercept after them. *)
Definition gd_init (F : realFieldType) (rand : nat -> F) n (k0 : nat) :
    'cV[F]_(1 + n) :=
  np_r_ (rand (k0 + n)%N * (1 / 100))
        ((1 / 100) *: (\col_(i < n) rand (k0 + i)%N)).


(** ** The encoded array, as the specification words it

    Column by column, from left to right: a column that is not listed is
    kept, a listed column gives way to its indicator columns. *)

Section EncoderSpec.

Variable disp : Order.disp_t.
Variable V : orderType disp.
Variable cast_int : nat -> V.

Variable drop_first : bool.
Variable A : ndarray V.

(** The distinct values of column [j], in sorted order. *)
Definition categories (j : nat) : seq V := np_unique (column cast_int A j).

(** The indicators of row [r] for the listed column [j]. *)
Definition indicator_block (j : nat) (r : seq V) : seq nat :=
  let one_hot := one_hot_row (categories j) (nth (cast_int 0) r j) in
  if drop_first then behead one_hot else one_hot.

(** The number of columns that column [j] of the input becomes. *)
Definition cell_width (listed : seq nat) (j : nat) : nat :=
  if j \in listed then
    if drop_first then (size (categories j)).-1 else size (categories j)
  else 1%N.

(** What column [j] of the input becomes in row [r]. *)
Definition encoded_cell (listed : seq nat) (r : seq V) (j : nat) : seq V :=
  if j \in listed then [seq cast_int x | x <- indicator_block j r]
  else [:: nth (cast_int 0) r j].

Definition encoded_row (listed : seq nat) (r : seq V) : seq V :=
  flatten [seq encoded_cell listed r j | j <- iota 0 (ncols A)].

(** The column of the output at which the cell of input column [j] starts. *)
Definition cell_offset (listed : seq nat) (j : nat) : nat :=
  sumn [seq cell_width listed c | c <- iota 0 j].

Definition encoded (listed : seq nat) : ndarray V :=
  {| ncols := cell_offset listed (ncols A);
     rows := [seq encoded_row listed r | r <- rows A] |}.

(** The cells right of input column [j], and the columns they take. *)
Definition cells_after (listed : seq nat) (r : seq V) (j : nat) : seq V :=
  flatten [seq encoded_cell listed r c | c <- iota j.+1 (ncols A - j.+1)].

Definition width_after (listed : seq nat) (j : nat) : nat :=
  sumn [seq cell_width listed c | c <- iota j.+1 (ncols A - j.+1)].

End EncoderSpec.

(** ** The sums of squares of the evaluation, as the specification words them *)

Section SumsOfSquares.

Variable F : realFieldType.

(** The total sum of squares [np.sum((y_true - np.mean(y_true)) ** 2)]. *)
Definition total_ss m (y : 'cV[F]_m) : F :=
  \sum_(i < m) (y i ord0 - (\sum_(j < m) y j ord0) / m%:R) ^+ 2.

(** The residual sum of squares [np.sum((y_true - y_pred) ** 2)]. *)
Definition residual_ss m (y_true y_pred : 'cV[F]_m) : F :=
  \sum_(i < m) (y_true i ord0 - y_pred i ord0) ^+ 2.

End SumsOfSquares.


(** ** [LinearRegressor.fit_simple]

    The method computes two floats, the slope [w] and the intercept [b],
    and assigns [np.array([w])] to [coefficients] and [b] to [intercept].
    The feature array holds one value per observation: a 1-D array, or a
    2-D array with one column that [reshape(1, -1)] lays out in one row;
    either way the products and sums run over the observations in order. *)

Section FitSimple.

Variable F : realFieldType.

Definition fmul : np_float F -> np_float F -> np_float F := lift2 *%R.

Definition arr_mul m (a b : 'cV[np_float F]_m) : 'cV[np_float F]_m :=
  \col_(i < m) fmul (a i ord0) (b i ord0).

(** The slope and the intercept that [fit_simple] computes. *)
Definition simple_regression m (X : features F m 1) (y : 'cV[F]_m) :
    np_float F * np_float F :=
  let xs := fin_arr (as_2d X) in
  let ys := fin_arr y in
  let x_mean := np_mean xs in
  let y_mean := np_mean ys in
  let numerador :=
    np_sum (arr_mul (arr_sub_scalar xs x_mean) (arr_sub_scalar ys y_mean)) in
  let denominador := np_sum (arr_sqr (arr_sub_scalar xs x_mean)) in
  let w := fdiv numerador denominador in
  let b := fsub y_mean (fmul w x_mean) in
  (w, b).

(** The two assignments.  The attributes of [LinearRegressor] hold finite
    numbers; when the slope or the intercept is [nan] or [inf] the state
    the method leaves is outside the model, which [None] stands for. *)
Definition fit_simple m (X : features F m 1) (y : 'cV[F]_m) (w0 : world F) :
    option (result unit * world F) :=
  match simple_regression X y with
  | (Fin w, Fin b) =>
      Some (bind (set_coefficients [:: w]) (fun _ => set_intercept b) w0)
  | _ => None
  end.

(** The sample mean, and the centered sum of products of the slope (the
    centered sum of squares is [total_ss]). *)
Definition mean m (x : 'cV[F]_m) : F := (\sum_(i < m) x i ord0) / m%:R.

Definition centered_sp m (x y : 'cV[F]_m) : F :=
  \sum_(i < m) (x i ord0 - mean x) * (y i ord0 - mean y).

End FitSimple.

(** The sum of the squares of the entries of a matrix. *)
Definition frobenius_ss (F : realFieldType) m n (X : 'M[F]_(m, n)) : F :=
  \sum_(i < m) \sum_(j < n) (X i j) ^+ 2.

(** ** Concrete data for the examples *)

(** The matrix with the given rows. *)
Definition mx_of_rows (F : realFieldType) m n (l : seq (seq F)) : 'M[F]_(m, n) :=
  \matrix_(i < m, j < n) nth 0 (nth [::] l i) j.

(** A generator whose draws run through the eighths of [0, 1). *)
Definition ex_rand (k : nat) : rat := (k %% 8)%:R / 8%:R.

(** A freshly constructed regressor, nothing drawn, nothing printed. *)
Definition ex_world : world rat := World (init_regressor rat) 0 [::].

(** Three observations of one feature that no line passes through. *)
Definition ex_flat_X : 'M[rat]_(3, 1) := mx_of_rows 3 1 [:: [:: 0]; [:: 0]; [:: 1]].
Definition ex_flat_y : 'cV[rat]_3 := col_of_seq 3 [:: 0; 1; 0].

(** The scenario of the specification: four points of the line y = 2 x. *)
Definition ex_line_X : 'M[rat]_(4, 1) :=
  mx_of_rows 4 1 [:: [:: 1]; [:: 2]; [:: 3]; [:: 4]].
Definition ex_line_y : 'cV[rat]_4 := col_of_seq 4 [:: 2; 4; 6; 8].
Definition ex_line_theta : 'cV[rat]_(1 + 1) := col_of_seq 2 [:: 0; 2].


(** A fitted regressor with intercept 0 and one coefficient 2, and a 1-D
    feature array. *)
Definition ex_fitted_world : world rat :=
  World {| coefficients := Some [:: 2]; intercept := Some 0 |} 0 [::].
Definition ex_feature : 'cV[rat]_2 := col_of_seq 2 [:: 5; 6].

(** A constant target. *)
Definition ex_const_y : 'cV[rat]_2 := col_of_seq 2 [:: 1; 1].

(** A square root on the rationals, exact on the squares and rounded
    down to a multiple of the inverse of the denominator elsewhere. *)
Definition ex_sqrt (q : rat) : rat :=
  (Nat.sqrt (absz (numq q) * absz (denq q)))%:R / (absz (denq q))%:R.

(** Two tables of numbers, each alone in its heap. *)
Definition ex_table : ndarray nat :=
  {| ncols := 2; rows := [:: [:: 5; 7]; [:: 6; 8]]%N |}.
Definition ex_table_same : ndarray nat :=
  {| ncols := 2; rows := [:: [:: 5; 7]; [:: 5; 8]]%N |}.

(** Case analysis on an index of a small concrete matrix. *)
Ltac ord_cases i :=
  let k := fresh "k" in let Hk := fresh "Hk" in
  case: i => k Hk; do 5?[case: k Hk => [|k] Hk //].

(** * Properties *)

(** ** Sums and means of finite arrays *)

Section NpFloatTheory.

Variable F : realFieldType.

Lemma np_sum_fin m (a : 'cV[F]_m) :
  np_sum (fin_arr a) = Fin (\sum_(i < m) a i ord0).
Proof.
rewrite /np_sum (@big_morph _ _ (@Fin F) (Fin 0) (@fadd F) 0 +%R) //.
by apply: eq_bigr => i _; rewrite mxE.
Qed.

Lemma np_mean_fin m (a : 'cV[F]_m) :
  (0 < m)%N -> np_mean (fin_arr a) = Fin ((\sum_(i < m) a i ord0) / m%:R).
Proof.
by move=> m_gt0; rewrite /np_mean np_sum_fin /= pnatr_eq0 eqn0Ngt m_gt0.
Qed.

Lemma sum_fin_arr0 (a : 'cV[np_float F]_0) : np_sum a = Fin 0.
Proof. by rewrite /np_sum big_ord0. Qed.

Lemma arr_sub_fin m (a b : 'cV[F]_m) :
  arr_sub (fin_arr a) (fin_arr b) = fin_arr (a - b).
Proof. by apply/colP => i; rewrite !mxE. Qed.

Lemma arr_sub_scalar_fin m (a : 'cV[F]_m) (s : F) :
  arr_sub_scalar (fin_arr a) (Fin s) = fin_arr (map_mx (fun x => x - s) a).
Proof. by apply/colP => i; rewrite !mxE. Qed.

Lemma arr_sqr_fin m (a : 'cV[F]_m) :
  arr_sqr (fin_arr a) = fin_arr (map_mx (fun x => x ^+ 2) a).
Proof. by apply/colP => i; rewrite !mxE. Qed.

Lemma arr_abs_fin m (a : 'cV[F]_m) :
  arr_abs (fin_arr a) = fin_arr (map_mx (fun x => `|x|) a).
Proof. by apply/colP => i; rewrite !mxE. Qed.

End NpFloatTheory.

(** ** The regressor *)

Section RegressorTheory.
Variable F : realFieldType.
Variable rand : nat -> F.

Lemma size_seq_of_col k (v : 'cV[F]_k) : size (seq_of_col v) = k.
Proof. by rewrite /seq_of_col size_map size_enum_ord. Qed.

Lemma nth_seq_of_col k (v : 'cV[F]_k) (i : 'I_k) : nth 0 (seq_of_col v) i = v i ord0.
Proof.
by rewrite /seq_of_col (nth_map i) ?size_enum_ord // nth_ord_enum.
Qed.

Lemma seq_of_colK k (v : 'cV[F]_k) : col_of_seq k (seq_of_col v) = v.
Proof. by apply/colP => i; rewrite mxE nth_seq_of_col. Qed.

Lemma col_of_seqK k (s : seq F) :
  size s = k -> seq_of_col (col_of_seq k s) = s.
Proof.
move=> sz_s; apply: (@eq_from_nth _ 0); rewrite size_seq_of_col // => i i_lt.
by rewrite (nth_seq_of_col _ (Ordinal i_lt)) mxE.
Qed.

Lemma seq_of_col_cons n (theta : 'cV[F]_(1 + n)) :
  seq_of_col theta = theta ord0 ord0 :: seq_of_col (dsubmx theta).
Proof.
rewrite /seq_of_col enum_ordSl /= -map_comp; congr (_ :: _).
by apply: eq_map => i /=; rewrite mxE rshift1.
Qed.

Lemma seq_of_col_np_r_ n (b : F) (c : 'cV[F]_n) :
  seq_of_col (np_r_ b c) = b :: seq_of_col c.
Proof.
rewrite seq_of_col_cons /np_r_ col_mxKd; congr (_ :: _).
have -> : ord0 = lshift n (ord0 : 'I_1) by apply: val_inj.
by rewrite col_mxEu mxE.
Qed.

Lemma np_r_split n (theta : 'cV[F]_(1 + n)) :
  np_r_ (theta ord0 ord0) (dsubmx theta) = theta.
Proof.
rewrite /np_r_ -[RHS]vsubmxK; congr col_mx.
apply/matrixP => i j; rewrite !mxE !ord1.
by congr (theta _ _); apply: val_inj.
Qed.


Lemma known_methodF (method : string) :
  method <> "least_squares"%string -> method <> "gradient_descent"%string ->
  known_method method = false.
Proof.
by move=> /String.eqb_neq h1 /String.eqb_neq h2; rewrite /known_method h1 h2.
Qed.

Lemma fit_least_squaresE m n (X : features F m n) (y : 'cV[F]_m) lr iters :
  fit rand X y "least_squares" lr iters =
  bind (fit_multiple (with_bias (as_2d X)) y) (fun _ => ret None).
Proof. by []. Qed.

Lemma normal_equation_solution m k (Xb : 'M[F]_(m, k)) (y : 'cV[F]_m) :
  Xb^T *m Xb \in unitmx ->
  (Xb^T *m Xb) *m (invmx (Xb^T *m Xb) *m Xb^T *m y) = Xb^T *m y.
Proof. by move=> G_unit; rewrite -(mulmxA (invmx _)) mulKVmx. Qed.

Lemma fit_multiple_run m n (Xb : 'M[F]_(m, 1 + n)) (y : 'cV[F]_m)
    (w : world F) :
  Xb^T *m Xb \in unitmx ->
  fit_multiple Xb y w =
  (Ret tt, World (regressor_of (invmx (Xb^T *m Xb) *m Xb^T *m y))
                 (rng w) (stdout w)).
Proof.
by move=> G_unit; rewrite /fit_multiple /bind /lift_result /np_linalg_inv G_unit.
Qed.

Lemma fit_least_squares_run m n (X : features F m n) (y : 'cV[F]_m)
    lr iters (w : world F) :
  let Xb := with_bias (as_2d X) in
  Xb^T *m Xb \in unitmx ->
  fit rand X y "least_squares" lr iters w =
  (Ret None, World (regressor_of (invmx (Xb^T *m Xb) *m Xb^T *m y))
                   (rng w) (stdout w)).
Proof.
by move=> Xb G_unit; rewrite fit_least_squaresE /bind fit_multiple_run.
Qed.

Lemma regressor_of_seq n (theta : 'cV[F]_(1 + n)) :
  regressor_of theta =
  {| coefficients := Some (drop 1 (seq_of_col theta));
     intercept := Some (nth 0 (seq_of_col theta) 0) |}.
Proof. by rewrite seq_of_col_cons /= drop0. Qed.

(** Claim C1.  When the matrix [X^T X] of the bias-augmented design matrix
    [X] is invertible, the closed-form fitter, called as [fit_multiple] or
    through [fit] with the method "least_squares", computes
    theta = (X^T X)^-1 X^T y, which solves the normal equation
    (X^T X) theta = X^T y, and stores theta[0] as the intercept and
    theta[1:] as the coefficients; nothing is drawn and nothing printed. *)
Theorem fit_least_squares_normal_equation m n (X : features F m n)
    (y : 'cV[F]_m) (lr : F) (iters : nat) (w : world F) :
  let Xb := with_bias (as_2d X) in
  let theta := invmx (Xb^T *m Xb) *m Xb^T *m y in
  let w' := {| self := {| coefficients := Some (drop 1 (seq_of_col theta));
                          intercept := Some (nth 0 (seq_of_col theta) 0) |};
               rng := rng w; stdout := stdout w |} in
  Xb^T *m Xb \in unitmx ->
  [/\ (Xb^T *m Xb) *m theta = Xb^T *m y,
      fit_multiple Xb y w = (Ret tt, w') &
      fit rand X y "least_squares" lr iters w = (Ret None, w')].
Proof.
move=> Xb theta w' G_unit; rewrite /w' -regressor_of_seq; split.
- exact: normal_equation_solution.
- exact: fit_multiple_run.
- exact: fit_least_squares_run.
Qed.

(** Claim C5.  Whatever the model holds and whatever [X] and [y] are, [fit]
    with a method tag other than "least_squares" and "gradient_descent"
    raises [ValueError] at once: the world it returns is the world it was
    given, so the intercept and the coefficients are the prior ones, no
    random number was drawn and nothing was printed. *)
Theorem fit_unknown_method_raises m n (X : features F m n) (y : 'cV[F]_m)
    (method : string) (lr : F) (iters : nat) (w : world F) :
  method <> "least_squares"%string -> method <> "gradient_descent"%string ->
  fit rand X y method lr iters w = (Raise ValueError, w).
Proof. by move=> h1 h2; rewrite /fit known_methodF. Qed.

Lemma with_bias_np_r_ m n (X : 'M[F]_(m, n)) (b : F) (c : 'cV[F]_n) (i : 'I_m) :
  (with_bias X *m np_r_ b c) i ord0 = b + \sum_(j < n) X i j * c j ord0.
Proof.
rewrite /with_bias /np_r_ mul_row_col !mxE big_ord1 !mxE mul1r.
by congr (_ + _).
Qed.

Lemma predict_run m n (X : features F m n) (b : F) (c : seq F) (w : world F) :
  intercept (self w) = Some b -> coefficients (self w) = Some c ->
  size c = n ->
  predict X w = (Ret (with_bias (as_2d X) *m np_r_ b (col_of_seq n c)), w).
Proof.
move=> wb wc sz_c.
by rewrite /predict wb wc /bind /get_intercept /get_coefficients wb wc sz_c eqxx.
Qed.

Lemma predict_regressor_of m n (X : features F m n) (theta : 'cV[F]_(1 + n))
    k out :
  predict X (World (regressor_of theta) k out) =
  (Ret (with_bias (as_2d X) *m theta), World (regressor_of theta) k out).
Proof.
rewrite (@predict_run _ _ _ (theta ord0 ord0) (seq_of_col (dsubmx theta))) //.
  by rewrite size_seq_of_col.
by rewrite seq_of_colK np_r_split.
Qed.


Lemma predict_1d m (x : 'cV[F]_m) (b c0 : F) (w : world F) :
  self w = {| coefficients := Some [:: c0]; intercept := Some b |} ->
  predict (Arr1D x) w = (Ret (\col_i (b + x i ord0 * c0)), w).
Proof.
move=> sw; rewrite (@predict_run _ _ _ b [:: c0]) ?sw //; congr (Ret _, _).
by apply/colP => i; rewrite with_bias_np_r_ big_ord1 !mxE.
Qed.

Lemma predict_unfitted m n (X : features F m n) (w : world F) :
  (coefficients (self w) == None) || (intercept (self w) == None) ->
  predict X w = (Raise ValueError, w).
Proof.
by rewrite /predict; case: (coefficients _) => [c|] //; case: (intercept _).
Qed.

(** *** Gradient descent *)

Local Arguments gd_params : simpl never.

Lemma mean_squaredE m n (X : 'M[F]_(m, 1 + n)) (y : 'cV[F]_m) theta :
  (0 < m)%N -> mean_squared (X *m theta - y) = Fin (mse X y theta).
Proof.
move=> m_gt0; rewrite /mean_squared np_mean_fin // /mse /gd_error.
by congr (Fin (_ / _)); apply: eq_bigr => i _; rewrite mxE.
Qed.

Lemma gd_step_split m n (X : 'M[F]_(m, 1 + n)) (y : 'cV[F]_m) lr theta :
  let g := (2 / m%:R) *: (X^T *m (X *m theta - y)) in
  gd_step X y lr theta ord0 ord0 = theta ord0 ord0 - lr * g ord0 ord0 /\
  dsubmx (gd_step X y lr theta) = dsubmx theta - lr *: dsubmx g.
Proof.
move=> g; rewrite /gd_step /gd_gradient /gd_error -/g.
by rewrite linearB linearZ /= [in LHS]mxE [in LHS]mxE [in LHS]mxE.
Qed.

(** One pass of the loop body on an object that holds [theta]. *)
Lemma gd_epochE m n (X : 'M[F]_(m, 1 + n)) (y : 'cV[F]_m) lr epoch
    (h : history F) theta k out :
  (0 < m)%N ->
  gd_epoch X y lr epoch h (World (regressor_of theta) k out) =
  (Ret (rcons h.1 (Fin (mse X y theta)),
        rcons h.2 (seq_of_col (gd_step X y lr theta))),
   World (regressor_of (gd_step X y lr theta)) k
         (if (epoch %% 100 == 0)%N
          then rcons out (epoch, Fin (mse X y theta)) else out)).
Proof.
move=> m_gt0.
rewrite /gd_epoch /bind /get_intercept /get_coefficients /lift_result /=.
rewrite (size_seq_of_col (dsubmx theta)) eqxx seq_of_colK np_r_split /py_div.
rewrite eqn0Ngt m_gt0 /= size_seq_of_col eqxx seq_of_colK.
rewrite mean_squaredE //.
have [bE cE] := gd_step_split X y lr theta.
rewrite seq_of_col_cons /regressor_of bE cE.
by case: ifP.
Qed.

Lemma gd_paramsSr m n (X : 'M[F]_(m, 1 + n)) (y : 'cV[F]_m) lr theta k :
  gd_params X y lr theta k.+1 = gd_params X y lr (gd_step X y lr theta) k.
Proof. by rewrite /gd_params iterSr. Qed.

(** The whole loop, started at epoch [a] on an object that holds [theta]. *)
Lemma for_range_gd m n (X : 'M[F]_(m, 1 + n)) (y : 'cV[F]_m) lr
    (k a : nat) theta (h : history F) r out :
  (0 < m)%N ->
  for_range (iota a k) (gd_epoch X y lr) h (World (regressor_of theta) r out) =
  (Ret (h.1 ++ [seq Fin (mse X y (gd_params X y lr theta i)) | i <- iota 0 k],
        h.2 ++ [seq seq_of_col (gd_params X y lr theta i.+1) | i <- iota 0 k]),
   World (regressor_of (gd_params X y lr theta k)) r
     (out ++ [seq (e, Fin (mse X y (gd_params X y lr theta (e - a))))
             | e <- iota a k & (e %% 100 == 0)%N])).
Proof.
move=> m_gt0; elim: k a theta h out => [|k IHk] a theta [lh wh] out.
  by rewrite /= !cats0.
rewrite [for_range _ _ _]/= /bind gd_epochE // {}IHk [(_, _).1]/= [(_, _).2]/=.
rewrite !cat_rcons -[iota 0 k.+1]/(0%N :: iota (1 + 0) k) iotaDl.
rewrite -[iota a k.+1]/(a :: iota a.+1 k) !map_cons -!map_comp.
congr (Ret (_ ++ _ :: _, _ ++ _ :: _), World _ _ _).
- by apply: eq_map => i /=; rewrite [in RHS]gd_paramsSr.
- by apply: eq_map => i /=; rewrite [in RHS]gd_paramsSr.
- by rewrite gd_paramsSr.
have -> : [seq (e, Fin (mse X y (gd_params X y lr (gd_step X y lr theta) (e - a.+1))))
               | e <- iota a.+1 k & (e %% 100 == 0)%N] =
             [seq (e, Fin (mse X y (gd_params X y lr theta (e - a))))
               | e <- iota a.+1 k & (e %% 100 == 0)%N].
  apply/eq_in_map => e; rewrite mem_filter mem_iota => /andP[_ /andP[a_lt_e _]].
  by rewrite -gd_paramsSr subnSK.
by rewrite [filter _ (_ :: _)]/=; case: ifP => _ //; rewrite cat_rcons map_cons subnn.
Qed.

Lemma regressor_of_np_r_ n (b : F) (c : 'cV[F]_n) :
  regressor_of (np_r_ b c) =
  {| coefficients := Some (seq_of_col c); intercept := Some b |}.
Proof.
have := seq_of_col_np_r_ b c; rewrite seq_of_col_cons => -[bE cE].
by rewrite /regressor_of bE cE.
Qed.

Lemma fit_gradient_descentE m n (X : 'M[F]_(m, 1 + n)) (y : 'cV[F]_m) lr
    (iterations : nat) (w : world F) :
  (0 < m)%N ->
  let theta := gd_params X y lr (gd_init rand n (rng w)) in
  fit_gradient_descent rand X y lr iterations w =
  (Ret ([seq Fin (mse X y (theta i)) | i <- iota 0 iterations],
        [seq seq_of_col (theta i.+1) | i <- iota 0 iterations]),
   World (regressor_of (theta iterations)) (rng w + n).+1
     (stdout w ++ [seq (e, Fin (mse X y (theta e)))
                  | e <- iota 0 iterations & (e %% 100 == 0)%N])).
Proof.
move=> m_gt0 theta.
rewrite /fit_gradient_descent /bind /= -regressor_of_np_r_ -/(gd_init rand n (rng w)).
rewrite for_range_gd //=.
by congr (_, World _ _ (_ ++ _)); apply: eq_map => e; rewrite subn0.
Qed.

Lemma fit_gradient_descent_run m n (X : features F m n) (y : 'cV[F]_m) lr
    (iterations : nat) (w : world F) :
  (0 < m)%N ->
  let Xb := with_bias (as_2d X) in
  let theta := gd_params Xb y lr (gd_init rand n (rng w)) in
  fit rand X y "gradient_descent" lr iterations w =
  (Ret (Some ([seq Fin (mse Xb y (theta i)) | i <- iota 0 iterations],
              [seq seq_of_col (theta i.+1) | i <- iota 0 iterations])),
   World (regressor_of (theta iterations)) (rng w + n).+1
     (stdout w ++ [seq (e, Fin (mse Xb y (theta e)))
                  | e <- iota 0 iterations & (e %% 100 == 0)%N])).
Proof.
by move=> m_gt0 Xb theta; rewrite /fit /= /bind -/Xb fit_gradient_descentE.
Qed.

(** Claim C2.  On [m > 0] observations, [fit] with the method
    "gradient_descent" starts from the random initial parameters
    [gd_init], runs every one of the [iterations] passes and returns two
    histories of that length.  With theta_0 the initial parameters and
    theta_(i+1) = theta_i - learning_rate * (2/m) X^T (X theta_i - y), pass
    [i] appends the updated parameters theta_(i+1) to the weight history and
    the mean squared error of X theta_i - y to the loss history; the model
    ends with the parameters theta_iterations. *)
Theorem gradient_descent_trace m n (X : features F m n) (y : 'cV[F]_m)
    (learning_rate : F) (iterations : nat) (w : world F) :
  (0 < m)%N ->
  let Xb := with_bias (as_2d X) in
  let theta := gd_params Xb y learning_rate (gd_init rand n (rng w)) in
  exists (loss_history : seq (np_float F)) (w_history : seq (seq F)) w',
    [/\ fit rand X y "gradient_descent" learning_rate iterations w =
          (Ret (Some (loss_history, w_history)), w'),
        size loss_history = iterations /\ size w_history = iterations,
        forall i, (i < iterations)%N ->
          [/\ theta i.+1 = theta i - learning_rate *:
                ((2 / m%:R) *: (Xb^T *m (Xb *m theta i - y))),
              nth [::] w_history i = seq_of_col (theta i.+1) &
              nth NonFinite loss_history i =
              Fin ((\sum_(j < m) ((Xb *m theta i - y) j ord0) ^+ 2) / m%:R)] &
        self w' = regressor_of (theta iterations)].
Proof.
move=> m_gt0 Xb theta.
do 3!eexists; split.
- exact: fit_gradient_descent_run.
- by rewrite !size_map size_iota.
- by move=> i i_lt; split=> //; rewrite (nth_map 0%N) ?size_iota // nth_iota.
- by [].
Qed.


(** *** Closed form: when the normal equation has a solution *)

Lemma row_free_tr m k (A : 'M[F]_(m, k)) : row_free A^T = row_full A.
Proof. by rewrite /row_free /row_full mxrank_tr. Qed.

Lemma sum_sqr_row_eq0 m (u : 'rV[F]_m) : u *m u^T = 0 -> u = 0.
Proof.
move=> /matrixP/(_ ord0 ord0); rewrite !mxE => /eqP.
rewrite psumr_eq0; first by move=> j _; rewrite mxE -expr2 sqr_ge0.
move=> /allP uu0; apply/rowP => j; rewrite mxE.
have /implyP/(_ isT) := uu0 j (mem_index_enum j).
by rewrite mxE mulf_eq0 orbb => /eqP.
Qed.

(** Over an ordered field, full column rank makes [X^T X] invertible. *)
Lemma gram_unit m k (A : 'M[F]_(m, k)) : row_full A -> A^T *m A \in unitmx.
Proof.
move=> A_full; rewrite -row_free_unit; apply: inj_row_free => v vG0.
have /sum_sqr_row_eq0/eqP : (v *m A^T) *m (v *m A^T)^T = 0.
  by rewrite trmx_mul trmxK mulmxA -(mulmxA v) vG0 mul0mx.
by rewrite mulmx_free_eq0 ?row_free_tr // => /eqP.
Qed.


Lemma fit_least_squares_singular m n (X : features F m n) (y : 'cV[F]_m)
    lr iters (w : world F) :
  let Xb := with_bias (as_2d X) in
  Xb^T *m Xb \notin unitmx ->
  fit_multiple Xb y w = (Raise LinAlgError, w) /\
  fit rand X y "least_squares" lr iters w = (Raise LinAlgError, w).
Proof.
move=> Xb /negPf G_sing.
have fmE : fit_multiple Xb y w = (Raise LinAlgError, w).
  by rewrite /fit_multiple /bind /lift_result /np_linalg_inv G_sing.
by rewrite fit_least_squaresE /bind fmE.
Qed.

Lemma fit_then_predict m n (X : features F m n) (y : 'cV[F]_m)
    lr iters (w : world F) :
  let Xb := with_bias (as_2d X) in
  let theta := invmx (Xb^T *m Xb) *m Xb^T *m y in
  let w' := World (regressor_of theta) (rng w) (stdout w) in
  Xb^T *m Xb \in unitmx ->
  fit rand X y "least_squares" lr iters w = (Ret None, w') /\
  predict X w' = (Ret (Xb *m theta), w').
Proof.
move=> Xb theta w' G_unit; split; first exact: fit_least_squares_run.
exact: predict_regressor_of.
Qed.

(** The fitted values are the target exactly when the target is linear in
    the features. *)
Lemma least_squares_exact m k (Xb : 'M[F]_(m, k)) (y : 'cV[F]_m) :
  Xb^T *m Xb \in unitmx ->
  (Xb *m (invmx (Xb^T *m Xb) *m Xb^T *m y) = y) <->
  (exists theta : 'cV[F]_k, y = Xb *m theta).
Proof.
move=> G_unit; split=> [<-|[theta ->]]; first by eexists.
by rewrite -[_ *m (Xb *m theta)]mulmxA (mulmxA Xb^T) mulKmx.
Qed.


(** With as many observations as parameters every target is reproduced. *)
Lemma closed_form_square_interpolates n (X : 'M[F]_(1 + n, n))
    (y : 'cV[F]_(1 + n)) lr iters (w : world F) :
  row_full (with_bias X) ->
  exists w', fit rand (Arr2D X) y "least_squares" lr iters w = (Ret None, w') /\
             predict (Arr2D X) w' = (Ret y, w').
Proof.
move=> Xb_full.
have G_unit := gram_unit Xb_full.
have [fitE predE] := @fit_then_predict _ _ (Arr2D X) y lr iters w G_unit.
eexists; split; first exact: fitE.
rewrite predE; congr (Ret _, _); apply/least_squares_exact => //.
by exists (invmx (with_bias X) *m y); rewrite mulKVmx // -row_full_unit.
Qed.

End RegressorTheory.

(** ** The evaluation metrics *)

Section EvaluationTheory.

Variable F : realFieldType.
Variable sqrt : F -> F.

Lemma ss_totalE m (y : 'cV[F]_m) :
  np_sum (arr_sqr (arr_sub_scalar (fin_arr y) (np_mean (fin_arr y)))) =
  Fin (total_ss y).
Proof.
case: m y => [|m] y; first by rewrite sum_fin_arr0 /total_ss big_ord0.
rewrite np_mean_fin // arr_sub_scalar_fin arr_sqr_fin np_sum_fin.
by congr Fin; apply: eq_bigr => i _; rewrite !mxE.
Qed.

Lemma ss_residualE m (y_true y_pred : 'cV[F]_m) :
  np_sum (arr_sqr (arr_sub (fin_arr y_true) (fin_arr y_pred))) =
  Fin (residual_ss y_true y_pred).
Proof.
rewrite arr_sub_fin arr_sqr_fin np_sum_fin.
by congr Fin; apply: eq_bigr => i _; rewrite !mxE.
Qed.

Lemma R2_E m (y_true y_pred : 'cV[F]_m) :
  R2 (evaluate_regression sqrt y_true y_pred) =
  if total_ss y_true == 0 then NonFinite
  else Fin (1 - residual_ss y_true y_pred / total_ss y_true).
Proof.
by rewrite /evaluate_regression /= ss_totalE ss_residualE /=; case: ifP.
Qed.


Lemma total_ss_eq0 m (y : 'cV[F]_m) :
  total_ss y = 0 -> forall i j, y i ord0 = y j ord0.
Proof.
move=> /eqP; rewrite psumr_eq0; first by move=> k _; rewrite sqr_ge0.
move=> /allP y_mean i j.
have /implyP/(_ isT) := y_mean i (mem_index_enum i).
have /implyP/(_ isT) := y_mean j (mem_index_enum j).
by rewrite !sqrf_eq0 !subr_eq0 => /eqP-> /eqP->.
Qed.


Hypothesis sqrt0 : sqrt 0 = 0.


End EvaluationTheory.

(** ** Degenerate inputs *)

Section Degenerate.

Variable F : realFieldType.
Variable rand : nat -> F.
Variable sqrt : F -> F.


End Degenerate.

(** ** The encoder *)

Section EncoderTheory.

Variable disp : Order.disp_t.
Variable V : orderType disp.
Variable cast_int : nat -> V.
Variable drop_first : bool.

Notation ndarray := (ndarray V).
Notation x0 := (cast_int 0).

(** *** Indicators *)

Lemma np_unique_uniq (s : seq V) : uniq (np_unique s).
Proof. by rewrite /np_unique sort_uniq undup_uniq. Qed.

Lemma mem_np_unique (s : seq V) : np_unique s =i s.
Proof. by move=> x; rewrite /np_unique mem_sort mem_undup. Qed.

Lemma size_np_unique (s : seq V) : size (np_unique s) = size (undup s).
Proof. by rewrite /np_unique size_sort. Qed.

Lemma size_one_hot_row (u : seq V) (v : V) : size (one_hot_row u v) = size u.
Proof. by rewrite /one_hot_row size_map. Qed.

Lemma sumn_one_hot_row (u : seq V) (v : V) :
  uniq u -> sumn (one_hot_row u v) = (v \in u).
Proof.
move=> u_uniq; rewrite -(count_uniq_mem v u_uniq) /one_hot_row.
by elim: u {u_uniq} => //= c u ->; rewrite eq_sym.
Qed.

Lemma sumn_behead (s : seq nat) : (sumn (behead s) <= sumn s)%N.
Proof. by case: s => //= x s; rewrite leq_addl. Qed.

(** *** The rows of the encoded array *)

Variable A : ndarray.

Notation encoded_row := (encoded_row cast_int drop_first A).
Notation encoded_cell := (encoded_cell cast_int drop_first A).
Notation cell_width := (cell_width cast_int drop_first A).
Notation cell_offset := (cell_offset cast_int drop_first A).
Notation encoded := (encoded cast_int drop_first A).
Notation categories := (categories cast_int A).
Notation indicator_block := (indicator_block cast_int drop_first A).

Notation cells_after := (cells_after cast_int drop_first A).
Notation width_after := (width_after cast_int drop_first A).

Lemma iota_split (j n : nat) :
  (j < n)%N -> iota 0 n = iota 0 j ++ j :: iota j.+1 (n - j.+1).
Proof.
by move=> j_lt; rewrite -[in LHS](subnKC (ltnW j_lt)) iotaD add0n -(subnSK j_lt).
Qed.

Lemma size_encoded_cell listed r j :
  size (encoded_cell listed r j) = cell_width listed j.
Proof.
rewrite /encoded_cell /cell_width; case: ifP => // _.
rewrite size_map /indicator_block.
by case: drop_first; rewrite ?size_behead size_one_hot_row.
Qed.

Lemma cells_before listed r j :
  (j <= size r)%N -> (forall c, (c < j)%N -> c \notin listed) ->
  flatten [seq encoded_cell listed r c | c <- iota 0 j] = take j r.
Proof.
move=> j_le unlisted; rewrite -(map_nth_iota0 x0 j_le) -[RHS]flatten_seq1.
rewrite -map_comp; congr flatten; apply/eq_in_map => c.
by rewrite mem_iota add0n /= /encoded_cell => /unlisted/negPf->.
Qed.

Lemma cell_offset_unlisted listed j :
  (forall c, (c < j)%N -> c \notin listed) -> cell_offset listed j = j.
Proof.
elim: j => [//|j IHj] unlisted.
rewrite /cell_offset -addn1 iotaD map_cat sumn_cat /= add0n addn0.
rewrite -/(cell_offset listed j) IHj => [c c_lt|]; first exact/unlisted/ltnW.
by rewrite /cell_width (negPf (unlisted j _)).
Qed.

Lemma cell_offset_split listed j :
  (j < ncols A)%N ->
  cell_offset listed (ncols A) =
  (cell_offset listed j + (cell_width listed j + width_after listed j))%N.
Proof. by move=> /iota_split E; rewrite /cell_offset E map_cat sumn_cat. Qed.

Lemma encoded_row_split listed r j :
  size r = ncols A -> (j < ncols A)%N ->
  (forall c, (c < j)%N -> c \notin listed) ->
  encoded_row listed r =
  take j r ++ encoded_cell listed r j ++ cells_after listed r j.
Proof.
move=> sz_r j_lt unlisted.
rewrite /encoded_row (iota_split j_lt) map_cat flatten_cat /=.
by rewrite cells_before // sz_r ltnW.
Qed.

(** Listing one more column changes nothing to its right. *)
Lemma cells_after_cons listed r j :
  cells_after (j :: listed) r j = cells_after listed r j.
Proof.
congr flatten; apply/eq_in_map => c; rewrite mem_iota => /andP[j_lt _].
by rewrite /encoded_cell in_cons gtn_eqF.
Qed.

Lemma width_after_cons listed j :
  width_after (j :: listed) j = width_after listed j.
Proof.
congr sumn; apply/eq_in_map => c; rewrite mem_iota => /andP[j_lt _].
by rewrite /cell_width in_cons gtn_eqF.
Qed.

Lemma unlisted_cons listed j c :
  (forall c', (c' <= j)%N -> c' \notin listed) ->
  (c < j)%N -> c \notin j :: listed.
Proof.
by move=> unlisted c_lt; rewrite in_cons negb_or ltn_eqF // unlisted // ltnW.
Qed.

(** *** One pass of the loop *)

Lemma column_encoded listed j :
  well_shaped A -> (j < ncols A)%N ->
  (forall c, (c <= j)%N -> c \notin listed) ->
  column cast_int (encoded listed) j = column cast_int A j.
Proof.
move=> /allP wf j_lt unlisted; rewrite /column /= -map_comp.
apply/eq_in_map => r /wf/eqP sz_r /=.
rewrite (encoded_row_split sz_r j_lt) => [c /ltnW/unlisted //|].
rewrite nth_cat size_take sz_r j_lt ltnn subnn.
by rewrite /encoded_cell (negPf (unlisted j (leqnn j))).
Qed.

Lemma categories_nonempty j : (0 < nrows A)%N -> categories j <> [::].
Proof.
rewrite /categories /nrows => rows_gt0 /(congr1 size).
rewrite size_np_unique /= => /size0nil/undup_nil/(congr1 size).
by rewrite /column size_map => sz0; rewrite sz0 in rows_gt0.
Qed.

(** The row that one pass makes of an encoded row. *)
Lemma encode_row_step listed r j :
  size r = ncols A -> (j < ncols A)%N ->
  (forall c, (c <= j)%N -> c \notin listed) ->
  let r' := encoded_row listed r in
  let deleted := take j r' ++ drop j.+1 r' in
  take j deleted ++ [seq cast_int x | x <- indicator_block j r] ++ drop j deleted
  = encoded_row (j :: listed) r.
Proof.
move=> sz_r j_lt unlisted /=.
have sz_take : size (take j r) = j by rewrite size_take sz_r j_lt.
have rE : encoded_row listed r =
          take j r ++ nth x0 r j :: cells_after listed r j.
  rewrite (encoded_row_split sz_r j_lt) => [c /ltnW/unlisted //|].
  by rewrite /encoded_cell (negPf (unlisted j (leqnn j))).
have -> : take j (encoded_row listed r) ++ drop j.+1 (encoded_row listed r) =
          take j r ++ cells_after listed r j.
  by rewrite rE take_size_cat // -cat_rcons drop_size_cat // size_rcons sz_take.
rewrite take_size_cat // drop_size_cat //.
rewrite (@encoded_row_split (j :: listed) r j) // => [c|]; first exact: unlisted_cons.
by rewrite cells_after_cons /encoded_cell mem_head.
Qed.

Lemma encode_column_encoded listed j :
  well_shaped A -> (0 < nrows A)%N -> (j < ncols A)%N ->
  (forall c, (c <= j)%N -> c \notin listed) ->
  encode_column cast_int drop_first (encoded listed) (Posz j) =
  Ret (np_delete (encoded listed) j, encoded (j :: listed)).
Proof.
move=> wf rows_gt0 j_lt unlisted.
have unl_lt c : (c < j)%N -> c \notin listed by move=> /ltnW/unlisted.
have ncolsE : cell_offset listed (ncols A) = (j + (width_after listed j).+1)%N.
  rewrite (cell_offset_split _ j_lt) cell_offset_unlisted //.
  by rewrite /cell_width (negPf (unlisted j (leqnn j))).
rewrite /encode_column /= ncolsE -[X in (X < _)%N]addn0 ltn_add2l /=.
rewrite column_encoded // -/(categories j).
case uE: (categories j) (@categories_nonempty j rows_gt0) => [//|u us] _.
rewrite -uE {u us uE}; congr (Ret (_, NdArray _ _)).
  rewrite addnS /= (minn_idPl (leq_addr _ _)) addKn.
  rewrite (cell_offset_split _ j_lt) width_after_cons.
  rewrite cell_offset_unlisted => [c|]; first exact: unlisted_cons.
  by rewrite /cell_width mem_head addnA.
rewrite addnS /= (minn_idPl (leq_addr _ _)).
have -> : (if drop_first
           then [seq behead r | r <- [seq one_hot_row (categories j) v
                                     | v <- column cast_int A j]]
           else [seq one_hot_row (categories j) v | v <- column cast_int A j])
          = [seq indicator_block j r | r <- rows A].
  by rewrite /indicator_block /column; case: (drop_first); rewrite -!map_comp.
rewrite -map_comp zip_map -map_comp; apply/eq_in_map => r r_in /=.
by rewrite encode_row_step //; apply/eqP/(allP wf).
Qed.

(** *** Where the cells lie in an encoded row *)

Lemma cell_offsetS listed j :
  cell_offset listed j.+1 = (cell_offset listed j + cell_width listed j)%N.
Proof.
by rewrite /cell_offset -addn1 iotaD map_cat sumn_cat /= add0n addn0.
Qed.

Lemma cell_offset_le listed j1 j2 :
  (j1 <= j2)%N -> (cell_offset listed j1 <= cell_offset listed j2)%N.
Proof.
move=> /subnKC <-; rewrite /cell_offset iotaD map_cat sumn_cat.
exact: leq_addr.
Qed.

Lemma cell_offset_lt listed j1 j2 :
  (j1 < j2)%N -> j1 \notin listed ->
  (cell_offset listed j1 < cell_offset listed j2)%N.
Proof.
move=> j_lt /negPf unl; apply: leq_trans (cell_offset_le listed j_lt).
by rewrite cell_offsetS /cell_width unl addn1.
Qed.

Lemma size_cells_before listed r j :
  size (flatten [seq encoded_cell listed r c | c <- iota 0 j]) =
  cell_offset listed j.
Proof.
rewrite size_flatten /shape -map_comp /cell_offset; congr sumn.
by apply: eq_map => c /=; rewrite size_encoded_cell.
Qed.

Lemma encoded_cell_at listed r j :
  (j < ncols A)%N ->
  take (cell_width listed j) (drop (cell_offset listed j) (encoded_row listed r))
  = encoded_cell listed r j.
Proof.
move=> j_lt; rewrite /encoded_row (iota_split j_lt) map_cat flatten_cat /=.
by rewrite drop_size_cat ?size_cells_before // take_size_cat ?size_encoded_cell.
Qed.

Lemma size_encoded_row listed r :
  size (encoded_row listed r) = cell_offset listed (ncols A).
Proof. exact: size_cells_before. Qed.

(** *** The indicators of a listed column *)

Lemma size_indicator_block j r :
  size (indicator_block j r) =
  if drop_first then (size (undup (column cast_int A j))).-1
  else size (undup (column cast_int A j)).
Proof.
rewrite /indicator_block; case: (drop_first);
  by rewrite ?size_behead size_one_hot_row size_np_unique.
Qed.

Lemma sumn_indicator_block j r :
  r \in rows A ->
  (sumn (indicator_block j r) <= 1)%N /\
  (~~ drop_first -> sumn (indicator_block j r) = 1%N).
Proof.
move=> r_in.
have one : sumn (one_hot_row (categories j) (nth x0 r j)) = 1%N.
  rewrite sumn_one_hot_row ?np_unique_uniq // mem_np_unique.
  by rewrite (map_f (fun r => nth x0 r j)).
rewrite /indicator_block; case: (drop_first) => /=; last by rewrite one.
by split=> //; rewrite -[X in (_ <= X)%N]one sumn_behead.
Qed.

(** *** The loop, on the heap *)

Lemma deref_alloc_new (h : heap V) (B : ndarray) : deref (rcons h B) (size h) = B.
Proof. by rewrite /deref nth_rcons ltnn eqxx. Qed.

Lemma deref_alloc_old (h : heap V) (B : ndarray) r :
  (r < size h)%N -> deref (rcons h B) r = deref h r.
Proof. by move=> r_lt; rewrite /deref nth_rcons r_lt. Qed.

Lemma encoded_listed listed1 listed2 :
  listed1 =i listed2 -> encoded listed1 = encoded listed2.
Proof.
move=> eq_listed; rewrite /encoded /cell_offset; congr NdArray.
  by congr sumn; apply: eq_map => c; rewrite /cell_width eq_listed.
apply: eq_map => r; rewrite /encoded_row; congr flatten.
by apply: eq_map => c; rewrite /encoded_cell eq_listed.
Qed.

Lemma encoded_nil : well_shaped A -> encoded [::] = A.
Proof.
move=> /allP wf.
have AE : A = NdArray (ncols A) (rows A) by case: (A).
rewrite [RHS]AE /encoded cell_offset_unlisted //.
congr NdArray; rewrite -[RHS]map_id; apply/eq_in_map => r /wf/eqP sz_r /=.
by rewrite /encoded_row /= cells_before ?sz_r // take_oversize ?sz_r.
Qed.

Lemma gtn_transitive : transitive gtn.
Proof. by move=> n m p /= n_lt p_lt; exact: ltn_trans p_lt n_lt. Qed.

Lemma encode_loop_encoded js listed (h : heap V) xt :
  well_shaped A -> (0 < nrows A)%N ->
  sorted gtn js -> all (fun j => j < ncols A)%N js ->
  (forall j c, j \in js -> (c <= j)%N -> c \notin listed) ->
  (xt < size h)%N -> deref h xt = encoded listed ->
  exists h' xt',
    [/\ encode_loop cast_int drop_first [seq Posz j | j <- js] xt h = (Ret xt', h'),
        deref h' xt' = encoded (rev js ++ listed),
        (xt <= xt' < size h')%N &
        forall r, (r < size h)%N -> deref h' r = deref h r].
Proof.
move=> wf rows_gt0.
elim: js listed h xt => [|j js IHjs] listed h xt.
  by move=> _ _ _ xt_lt xtE; exists h, xt; split; rewrite ?leqnn.
rewrite /= (path_sortedE gtn_transitive) => /andP[/allP j_max js_sorted].
move=> /andP[j_lt js_lt] unlisted xt_lt xtE.
have unl_j c : (c <= j)%N -> c \notin listed by apply: unlisted; exact: mem_head.
rewrite xtE encode_column_encoded // /alloc size_rcons.
have [] := IHjs (j :: listed)
  (rcons (rcons h (np_delete (encoded listed) j)) (encoded (j :: listed)))
  (size h).+1 js_sorted js_lt.
- move=> j' c j'_in c_le; rewrite in_cons negb_or.
  have c_lt : (c < j)%N by apply: leq_ltn_trans c_le (j_max _ j'_in).
  by rewrite (ltn_eqF c_lt) /=; apply: (unlisted j') => //; rewrite in_cons j'_in orbT.
- by rewrite !size_rcons.
- by rewrite -[(size h).+1](size_rcons h (np_delete (encoded listed) j)) deref_alloc_new.
move=> h' [xt' [loopE xt'E /andP[xt_le xt'_lt] old]].
exists h', xt'; split=> //.
- by rewrite rev_cons cat_rcons.
- by rewrite xt'_lt (leq_trans (leqW (ltnW xt_lt)) xt_le).
move=> r r_lt; have r_lt1 : (r < (size h).+1)%N by exact: ltnW.
rewrite old ?size_rcons; first exact: ltnW.
by rewrite !deref_alloc_old // size_rcons.
Qed.

End EncoderTheory.

(** *** The whole function *)

Section EncoderClaims.

Variable disp : Order.disp_t.
Variable V : orderType disp.
Variable cast_int : nat -> V.

Lemma sort_indices (ks : seq nat) :
  sort (fun i j : int => (j <= i)%R) [seq Posz k | k <- ks] =
  [seq Posz k | k <- sort geq ks].
Proof. by rewrite sort_map. Qed.

Lemma sorted_gtn_sort (ks : seq nat) : uniq ks -> sorted gtn (sort geq ks).
Proof.
move=> ks_uniq; rewrite gtn_sorted_uniq_geq sort_uniq ks_uniq /=.
by apply: sort_sorted => m n; exact: leq_total.
Qed.

(** On distinct column positions of an array with at least one row, the
    function returns a new array, the encoded one, and writes nowhere. *)
Lemma one_hot_encode_encoded (h : heap V) (X : ref) (ks : seq nat)
    (drop_first : bool) :
  let A := deref h X in
  well_shaped A -> (0 < nrows A)%N ->
  uniq ks -> all (fun k => k < ncols A)%N ks ->
  exists h' X',
    [/\ one_hot_encode cast_int X [seq Posz k | k <- ks] drop_first h =
          (Ret X', h'),
        deref h' X' = encoded cast_int drop_first A ks,
        (size h <= X' < size h')%N &
        forall r, (r < size h)%N -> deref h' r = deref h r].
Proof.
move=> A wf rows_gt0 ks_uniq ks_lt.
rewrite /one_hot_encode /alloc sort_indices.
have [] := @encode_loop_encoded _ V cast_int drop_first A (sort geq ks) [::]
             (rcons h A) (size h) wf rows_gt0 (sorted_gtn_sort ks_uniq).
- by rewrite all_sort.
- by [].
- by rewrite size_rcons.
- by rewrite deref_alloc_new encoded_nil.
move=> h' [X' [loopE X'E X'_bounds old]]; exists h', X'; split=> //.
- rewrite X'E; apply: encoded_listed => k.
  by rewrite cats0 mem_rev mem_sort.
- by move=> r r_lt; rewrite old ?size_rcons ?deref_alloc_old // ltnW.
Qed.

(** Claim C8, as amended.  On a 2-D array with at least one row and a list
    of distinct, non-negative, in-range column indices, [one_hot_encode]
    returns an array with as many rows as the input in which every listed
    column [j], holding [k] distinct values, has become exactly [k]
    indicator columns ([k-1] with [drop_first]) that start where the
    columns before [j] end; in every row these indicators sum to at most 1,
    and to exactly 1 without [drop_first]. *)
Theorem one_hot_encode_indicator_columns (h : heap V) (X : ref)
    (ks : seq nat) (drop_first : bool) :
  let A := deref h X in
  let offset := cell_offset cast_int drop_first A ks in
  well_shaped A -> (0 < nrows A)%N ->
  uniq ks -> all (fun k => k < ncols A)%N ks ->
  exists h' X',
    [/\ one_hot_encode cast_int X [seq Posz k | k <- ks] drop_first h =
          (Ret X', h'),
        nrows (deref h' X') = nrows A &
        forall i j, (i < nrows A)%N -> j \in ks ->
          let k := size (undup (column cast_int A j)) in
          let r := nth [::] (rows A) i in
          let r' := nth [::] (rows (deref h' X')) i in
          let block := indicator_block cast_int drop_first A j r in
          [/\ size block = (if drop_first then k.-1 else k),
              take (size block) (drop (offset j) r') =
                [seq cast_int x | x <- block],
              offset j.+1 = (offset j + size block)%N,
              (sumn block <= 1)%N &
              ~~ drop_first -> sumn block = 1%N]].
Proof.
move=> A offset wf rows_gt0 ks_uniq ks_lt.
have [h' [X' [runE X'E _ _]]] :=
  one_hot_encode_encoded drop_first wf rows_gt0 ks_uniq ks_lt.
exists h', X'; split=> //; first by rewrite X'E /nrows /= size_map.
move=> i j i_lt j_in k r r' block.
have r_in : r \in rows A by exact: mem_nth.
have j_lt : (j < ncols A)%N by exact: (allP ks_lt).
have sz_block : size block = cell_width cast_int drop_first A ks j.
  by rewrite /cell_width j_in size_indicator_block /categories size_np_unique.
have [sum_le sum_eq] := sumn_indicator_block cast_int drop_first j r_in.
split=> //; first exact: size_indicator_block.
- rewrite /r' X'E /= (nth_map [::]) // sz_block encoded_cell_at //.
  by rewrite /encoded_cell j_in.
- by rewrite /offset cell_offsetS sz_block.
Qed.

(** Claim C9, as amended.  On a 2-D array with at least one row and a list
    of distinct, non-negative, in-range column indices, [one_hot_encode]
    returns a new array and writes into no existing one, the input least of
    all.  The columns of the result are the cells of the input columns in
    their order: a column that is not listed is one column with the same
    values, left of every later column; a listed column is its block of
    indicators, in the place of the column. *)
Theorem one_hot_encode_frame (h : heap V) (X : ref) (ks : seq nat)
    (drop_first : bool) :
  let A := deref h X in
  let offset := cell_offset cast_int drop_first A ks in
  let width := cell_width cast_int drop_first A ks in
  well_shaped A -> (0 < nrows A)%N ->
  uniq ks -> all (fun k => k < ncols A)%N ks ->
  exists h' X',
    [/\ one_hot_encode cast_int X [seq Posz k | k <- ks] drop_first h =
          (Ret X', h'),
        (size h <= X' < size h')%N /\
        (forall r, (r < size h)%N -> deref h' r = deref h r),
        ncols (deref h' X') = offset (ncols A) /\
        (forall j, offset j.+1 = (offset j + width j)%N),
        forall j1 j2, j1 \notin ks -> (j1 < j2)%N -> (offset j1 < offset j2)%N &
        forall i j, (i < nrows A)%N -> (j < ncols A)%N ->
          let r := nth [::] (rows A) i in
          let r' := nth [::] (rows (deref h' X')) i in
          if j \in ks then
            take (width j) (drop (offset j) r') =
            [seq cast_int x | x <- indicator_block cast_int drop_first A j r]
          else
            width j = 1%N /\
            nth (cast_int 0) r' (offset j) = nth (cast_int 0) r j].
Proof.
move=> A offset width wf rows_gt0 ks_uniq ks_lt.
have [h' [X' [runE X'E X'_bounds old]]] :=
  one_hot_encode_encoded drop_first wf rows_gt0 ks_uniq ks_lt.
exists h', X'; split=> //.
- by rewrite X'E; split=> // j; exact: cell_offsetS.
- by move=> j1 j2 j1_unl j_lt; exact: cell_offset_lt.
move=> i j i_lt j_lt r r'.
have r'E : r' = encoded_row cast_int drop_first A ks r.
  by rewrite /r' X'E /= (nth_map [::]).
have := encoded_cell_at cast_int drop_first ks r j_lt.
rewrite -r'E /encoded_cell -/(width j) -/(offset j).
case: ifP => // j_unl cellE; have wj : width j = 1%N by rewrite /width /cell_width j_unl.
split=> //; move: (congr1 (fun s => nth (cast_int 0) s 0) cellE).
by rewrite wj nth_take // nth_drop addn0.
Qed.

End EncoderClaims.

(** ** The examples: concrete runs over the rationals *)

Section ConcreteMatrices.

Variable F : realFieldType.

Lemma with_bias_rows m n (l : seq (seq F)) :
  size l = m ->
  with_bias (mx_of_rows m n l) = mx_of_rows m (1 + n) [seq 1 :: r | r <- l].
Proof.
move=> sz_l; apply/matrixP => i j; rewrite [RHS]mxE (nth_map [::]) ?sz_l //.
rewrite /with_bias mxE; case: splitP => j' ->; rewrite !mxE //.
by rewrite ord1.
Qed.

End ConcreteMatrices.


Lemma ex_flat_Xb_full : row_full (with_bias ex_flat_X).
Proof.
rewrite with_bias_rows //.
apply/row_fullP; exists (mx_of_rows 2 3 [:: [:: 1; 0; 0]; [:: -1; 0; 1]]).
apply/matrixP => i j; rewrite !mxE !big_ord_recl big_ord0 !mxE /=.
by ord_cases i; ord_cases j; rewrite /= ?mulr0 ?mul0r ?mul1r ?mulr1 ?addr0 ?add0r ?addNr.
Qed.


Lemma ex_flat_gram_unit :
  (with_bias ex_flat_X)^T *m with_bias ex_flat_X \in unitmx.
Proof. exact: gram_unit ex_flat_Xb_full. Qed.

(** C1 on the three flat observations *)
Lemma fit_least_squares_normal_equation_witness :
  let Xb := with_bias ex_flat_X in
  let theta := invmx (Xb^T *m Xb) *m Xb^T *m ex_flat_y in
  let w' := {| self := {| coefficients := Some (drop 1 (seq_of_col theta));
                          intercept := Some (nth 0 (seq_of_col theta) 0) |};
               rng := 0; stdout := [::] |} in
  [/\ (Xb^T *m Xb) *m theta = Xb^T *m ex_flat_y,
      fit_multiple Xb ex_flat_y ex_world = (Ret tt, w') &
      fit ex_rand (Arr2D ex_flat_X) ex_flat_y "least_squares" (1 / 100) 1000
        ex_world = (Ret None, w')].
Proof.
exact: (@fit_least_squares_normal_equation rat ex_rand 3 1 (Arr2D ex_flat_X)
          ex_flat_y (1 / 100) 1000 ex_world ex_flat_gram_unit).
Defined.

(** C2 on the three flat observations, two iterations *)
Lemma gradient_descent_trace_witness :
  (0 < 3)%N /\
  exists (loss_history : seq (np_float rat)) (w_history : seq (seq rat)) w',
    fit ex_rand (Arr2D ex_flat_X) ex_flat_y "gradient_descent" (1 / 10) 2
      ex_world = (Ret (Some (loss_history, w_history)), w') /\
    size loss_history = 2%N /\ size w_history = 2%N.
Proof.
split=> //.
have [lh [wh [w' [runE sizes _ _]]]] :=
  @gradient_descent_trace rat ex_rand 3 1 (Arr2D ex_flat_X) ex_flat_y
    (1 / 10) 2 ex_world isT.
by exists lh, wh, w'.
Defined.


(** C3, as amended, on the line of the scenario *)
Lemma ex_line_Xb_full : row_full (with_bias ex_line_X).
Proof.
rewrite with_bias_rows //.
apply/row_fullP; exists (mx_of_rows 2 4 [:: [:: 2; -1; 0; 0]; [:: -1; 1; 0; 0]]).
apply/matrixP => i j; rewrite !mxE !big_ord_recl big_ord0 !mxE /=.
by ord_cases i; ord_cases j; rewrite /=; lra.
Qed.


(** The scenario of the specification: on X = [[1],[2],[3],[4]] and
    y = [2,4,6,8] the closed form finds intercept 0 and coefficient 2, and
    predicts 10 at 5. *)
Lemma ex_line_exact : ex_line_y = with_bias ex_line_X *m ex_line_theta.
Proof.
apply/colP => i; rewrite with_bias_rows // !mxE !big_ord_recl big_ord0 !mxE /=.
by ord_cases i; rewrite /=; lra.
Qed.

Lemma scenario_line :
  fit ex_rand (Arr2D ex_line_X) ex_line_y "least_squares" (1 / 100) 1000
    ex_world = (Ret None, ex_fitted_world) /\
  predict (Arr1D (col_of_seq 1 [:: 5])) ex_fitted_world =
    (Ret (col_of_seq 1 [:: 10]), ex_fitted_world).
Proof.
have G_unit := gram_unit ex_line_Xb_full.
split.
  rewrite (@fit_least_squares_run _ ex_rand _ _ (Arr2D ex_line_X)) //=.
  rewrite ex_line_exact -[_ *m (_ *m ex_line_theta)]mulmxA.
  rewrite (mulmxA (with_bias ex_line_X)^T) mulKmx //.
  by rewrite regressor_of_seq col_of_seqK.
rewrite (@predict_1d _ _ _ 0 2) //; congr (Ret _, _).
by apply/colP => i; rewrite !mxE ord1 /=; lra.
Qed.


(** C5 on the method "invalid" *)
Lemma fit_unknown_method_raises_witness :
  fit ex_rand (Arr2D ex_line_X) ex_line_y "invalid" (1 / 100) 1000
    ex_fitted_world = (Raise ValueError, ex_fitted_world).
Proof.
by apply: (@fit_unknown_method_raises rat ex_rand 4 1 (Arr2D ex_line_X)
             ex_line_y "invalid" (1 / 100) 1000 ex_fitted_world).
Defined.






(** ** The encoder on concrete tables *)

(** C8 fails on a repeated index: column 0 of the table holds two distinct
    values, but listing it twice leaves three columns in its place, and
    their entries sum to 2 in the second row. *)
Lemma one_hot_encode_repeated_index_widens :
  let run := one_hot_encode id 0%N [:: Posz 0; Posz 0] false [:: ex_table] in
  [/\ run.1 = Ret 5%N,
      size (undup (column id ex_table 0)) = 2%N,
      deref run.2 5 =
        {| ncols := 4; rows := [:: [:: 0; 1; 0; 7]; [:: 1; 0; 1; 8]]%N |} &
      sumn (take 3 (nth [::] (rows (deref run.2 5)) 1)) = 2%N].
Proof. by []. Qed.

(** C9 fails on a repeated index with [drop_first]: column 1 of the table
    is not listed, and the result has lost it. *)
Lemma one_hot_encode_repeated_index_drops_column :
  let run := one_hot_encode id 0%N [:: Posz 0; Posz 0] true [:: ex_table_same] in
  [/\ run.1 = Ret 5%N,
      column id ex_table_same 1 = [:: 7; 8]%N,
      deref run.2 5 = {| ncols := 1; rows := [:: [:: 0]; [:: 1]]%N |} &
      forall j, column id (deref run.2 5) j != [:: 7; 8]%N].
Proof. by split=> //; case=> [|[|j]]. Qed.

(** A negative index is read from the end when the column is taken and
    deleted, but the slices that place the indicators then count from the
    end of the shorter array: the indicators of the last column land one
    position to the left, before column 0. *)
Lemma one_hot_encode_negative_index :
  let run := one_hot_encode id 0%N [:: Negz 0] false [:: ex_table_same] in
  [/\ run.1 = Ret 3%N,
      column id ex_table_same 0 = [:: 5; 5]%N,
      deref run.2 3 =
        {| ncols := 3; rows := [:: [:: 1; 0; 5]; [:: 0; 1; 5]]%N |} &
      column id (deref run.2 3) 2 = [:: 5; 5]%N].
Proof. by []. Qed.

(** An index out of range and an array without rows end in an error. *)
Lemma one_hot_encode_errors :
  [/\ (one_hot_encode id 0%N [:: Posz 2] false [:: ex_table]).1 = Raise IndexError,
      (one_hot_encode id 0%N [:: Posz 0] false
         [:: {| ncols := 2; rows := [::] |}]).1 = Raise ValueError &
      (one_hot_encode id 0%N [:: Posz 0] true
         [:: {| ncols := 2; rows := [::] |}]).1 = Raise IndexError].
Proof. by []. Qed.

(** C8, as amended, on both columns of the table *)
Lemma one_hot_encode_indicator_columns_witness :
  [/\ well_shaped ex_table, (0 < nrows ex_table)%N, uniq [:: 1; 0]%N &
      all (fun k => k < ncols ex_table)%N [:: 1; 0]%N] /\
  exists h' X',
    one_hot_encode id 0%N [:: Posz 1; Posz 0] false [:: ex_table] = (Ret X', h') /\
    nrows (deref h' X') = 2%N.
Proof.
split; first by [].
have [h' [X' [runE rowsE _]]] :=
  @one_hot_encode_indicator_columns _ nat id [:: ex_table] 0%N [:: 1; 0]%N
    false isT isT isT isT.
by exists h', X'.
Defined.

(** C9, as amended, on the first column of the table *)
Lemma one_hot_encode_frame_witness :
  [/\ well_shaped ex_table, (0 < nrows ex_table)%N, uniq [:: 0]%N &
      all (fun k => k < ncols ex_table)%N [:: 0]%N] /\
  exists h' X',
    [/\ one_hot_encode id 0%N [:: Posz 0] true [:: ex_table] = (Ret X', h'),
        (1 <= X')%N & deref h' 0 = ex_table].
Proof.
split; first by [].
have [h' [X' [runE [/andP[X'_new _] old] _ _ _]]] :=
  @one_hot_encode_frame _ nat id [:: ex_table] 0%N [:: 0]%N true
    isT isT isT isT.
by exists h', X'; split=> //; rewrite old.
Defined.


(** * Further properties of the code *)

(** ** [fit_simple] *)

Section FitSimpleTheory.

Variable F : realFieldType.
Variable rand : nat -> F.

Lemma total_ss_mean m (x : 'cV[F]_m) :
  total_ss x = \sum_(i < m) (x i ord0 - mean x) ^+ 2.
Proof. by []. Qed.

Lemma simple_regressionE m (X : features F m 1) (y : 'cV[F]_m) :
  (0 < m)%N ->
  let x := as_2d X in
  simple_regression X y =
  (if total_ss x == 0 then NonFinite
   else Fin (centered_sp x y / total_ss x),
   if total_ss x == 0 then NonFinite
   else Fin (mean y - centered_sp x y / total_ss x * mean x)).
Proof.
move=> m_gt0 x; rewrite /simple_regression -/x !np_mean_fin //.
rewrite !arr_sub_scalar_fin arr_sqr_fin !np_sum_fin.
have -> : arr_mul (fin_arr (map_mx (fun v => v - mean x) x))
                  (fin_arr (map_mx (fun v => v - mean y) y)) =
          fin_arr (\col_i ((x i ord0 - mean x) * (y i ord0 - mean y))).
  by apply/colP => i; rewrite !mxE.
rewrite np_sum_fin /=.
have -> : \sum_(i < m) (map_mx (fun v => v ^+ 2) (map_mx (fun v => v - mean x) x)) i ord0
          = total_ss x.
  by apply: eq_bigr => i _; rewrite !mxE.
have -> : \sum_(i < m) (\col_i0 ((x i0 ord0 - mean x) * (y i0 ord0 - mean y))) i ord0
          = centered_sp x y.
  by apply: eq_bigr => i _; rewrite !mxE.
by case: ifP.
Qed.


(** Sums of centered values. *)
Lemma sum_centered m (x : 'cV[F]_m) :
  (0 < m)%N -> \sum_(i < m) (x i ord0 - mean x) = 0.
Proof.
move=> m_gt0; rewrite sumrB sumr_const card_ord /mean -mulr_natr divfK ?subrr //.
by rewrite pnatr_eq0 -lt0n.
Qed.

Lemma with_bias_0 m n (X : 'M[F]_(m, n)) i : with_bias X i ord0 = 1.
Proof.
have -> : ord0 = lshift n (ord0 : 'I_1) by apply: val_inj.
by rewrite /with_bias row_mxEl mxE.
Qed.

Lemma with_bias_S m n (X : 'M[F]_(m, n)) i j :
  with_bias X i (lift ord0 j) = X i j.
Proof. by rewrite -rshift1 /with_bias row_mxEr. Qed.

Lemma np_r_0 n (b : F) (c : 'cV[F]_n) : np_r_ b c ord0 ord0 = b.
Proof.
have -> : ord0 = lshift n (ord0 : 'I_1) by apply: val_inj.
by rewrite /np_r_ col_mxEu mxE.
Qed.


(** The residuals of the line of [fit_simple] are centered and orthogonal
    to the feature: the normal equation in one variable. *)
Lemma simple_normal_equation m (x y : 'cV[F]_m) :
  (0 < m)%N -> total_ss x != 0 ->
  let w := centered_sp x y / total_ss x in
  let b := mean y - w * mean x in
  let Xb := with_bias x in
  (Xb^T *m Xb) *m np_r_ b (const_mx w) = Xb^T *m y.
Proof.
move=> m_gt0 ss_neq0 w b Xb.
pose r i := w * (x i ord0 - mean x) - (y i ord0 - mean y).
have rE i : (Xb *m np_r_ b (const_mx w) - y) i ord0 = r i.
  rewrite mxE with_bias_np_r_ big_ord1 !mxE /r /b; ring.
have sum_r : \sum_(i < m) r i = 0.
  by rewrite sumrB -mulr_sumr !sum_centered // mulr0 subrr.
have sum_xr : \sum_(i < m) x i ord0 * r i = 0.
  have -> : \sum_(i < m) x i ord0 * r i =
            w * total_ss x - centered_sp x y + mean x * \sum_(i < m) r i.
    rewrite mulr_sumr /centered_sp total_ss_mean mulr_sumr -sumrB -big_split /=.
    by apply: eq_bigr => i _; rewrite /r; ring.
  by rewrite sum_r mulr0 addr0 /w divfK // subrr.
apply/eqP; rewrite -subr_eq0 -mulmxA -mulmxBr; apply/eqP/colP => k.
rewrite !mxE; case: (unliftP ord0 k) => [j|] ->.
  rewrite -[RHS]sum_xr; apply: eq_bigr => i _.
  by rewrite mxE with_bias_S rE ord1.
rewrite -[RHS]sum_r; apply: eq_bigr => i _.
by rewrite mxE with_bias_0 rE mul1r.
Qed.

(** A feature that takes two values gives [1|x] full column rank. *)
Lemma with_bias_full m (x : 'cV[F]_m) :
  (exists i j, x i ord0 != x j ord0) -> row_full (with_bias x).
Proof.
move=> [i1 [i2 x_neq]]; rewrite -row_free_tr; apply: inj_row_free => u.
move: (with_bias x) (with_bias_0 x) (with_bias_S x) => Xb Xb0 XbS uX0.
have uE i : u ord0 ord0 + u ord0 (lift ord0 ord0) * x i ord0 = 0.
  have /rowP/(_ i) := uX0.
  by rewrite !mxE big_ord_recl big_ord1 !mxE Xb0 mulr1 XbS.
have u1 : u ord0 (lift ord0 ord0) = 0.
  have : u ord0 (lift ord0 ord0) * (x i1 ord0 - x i2 ord0) = 0.
    have -> : u ord0 (lift ord0 ord0) * (x i1 ord0 - x i2 ord0) =
              (u ord0 ord0 + u ord0 (lift ord0 ord0) * x i1 ord0) -
              (u ord0 ord0 + u ord0 (lift ord0 ord0) * x i2 ord0) by ring.
    by rewrite !uE subrr.
  by move=> /eqP; rewrite mulf_eq0 subr_eq0 (negPf x_neq) orbF => /eqP.
have u0 : u ord0 ord0 = 0 by have := uE i1; rewrite u1 mul0r addr0.
apply/rowP => k; rewrite mxE; case: (unliftP ord0 k) => [j|] -> //.
by rewrite ord1.
Qed.

Lemma total_ss_neq0 m (x : 'cV[F]_m) :
  (exists i j, x i ord0 != x j ord0) -> total_ss x != 0.
Proof.
move=> [i [j x_neq]]; apply: contraNneq x_neq => /total_ss_eq0 x_eq.
exact/eqP.
Qed.

Lemma nonconstant_gt0 m (x : 'cV[F]_m) :
  (exists i j, x i ord0 != x j ord0) -> (0 < m)%N.
Proof. by move=> [i _]; exact: leq_ltn_trans (ltn_ord i). Qed.

(** Property X1. On a feature that takes at least two values, [fit_simple]
    stores the slope Sxy / Sxx and the intercept mean(y) - slope * mean(x),
    and these are the parameters that the closed-form [fit] stores for the
    same data. *)
Theorem fit_simple_least_squares m (X : features F m 1) (y : 'cV[F]_m)
    (lr : F) (iters : nat) (w0 : world F) :
  (exists i j, as_2d X i ord0 != as_2d X j ord0) ->
  let x := as_2d X in
  let w := centered_sp x y / total_ss x in
  let b := mean y - w * mean x in
  let w' := {| self := {| coefficients := Some [:: w]; intercept := Some b |};
               rng := rng w0; stdout := stdout w0 |} in
  fit_simple X y w0 = Some (Ret tt, w') /\
  fit rand X y "least_squares" lr iters w0 = (Ret None, w').
Proof.
move=> x_neq x w b w'.
have m_gt0 := nonconstant_gt0 x_neq.
have ss_neq0 := total_ss_neq0 x_neq.
split.
  by rewrite /fit_simple simple_regressionE // (negPf ss_neq0).
have G_unit := gram_unit (with_bias_full x_neq).
rewrite fit_least_squares_run // -/x.
rewrite -(mulmxA (invmx _)) -(simple_normal_equation y m_gt0 ss_neq0).
by rewrite mulKmx // regressor_of_np_r_ /seq_of_col enum_ordSl enum_ord0 /= mxE.
Qed.


(** Property X3. [fit_simple] finds the line that the observations lie on. *)
Theorem fit_simple_exact_line m (X : features F m 1) (a c : F) (w0 : world F) :
  (exists i j, as_2d X i ord0 != as_2d X j ord0) ->
  let y : 'cV[F]_m := \col_i (a + c * as_2d X i ord0) in
  fit_simple X y w0 =
  Some (Ret tt,
        {| self := {| coefficients := Some [:: c]; intercept := Some a |};
           rng := rng w0; stdout := stdout w0 |}).
Proof.
move=> x_neq y; set x := as_2d X.
have m_gt0 := nonconstant_gt0 x_neq.
have ss_neq0 := total_ss_neq0 x_neq.
have m_neq0 : m%:R != 0 :> F by rewrite pnatr_eq0 -lt0n.
have mean_y : mean y = a + c * mean x.
  rewrite /mean (eq_bigr (fun i => a + c * x i ord0)) => [i _|]; first by rewrite mxE.
  rewrite big_split /= sumr_const card_ord -mulr_sumr -mulr_natr mulrDl mulfK //.
  by rewrite mulrA.
have spE : centered_sp x y = c * total_ss x.
  rewrite /centered_sp total_ss_mean mulr_sumr; apply: eq_bigr => i _.
  by rewrite mean_y mxE; ring.
rewrite /fit_simple simple_regressionE // -/x (negPf ss_neq0) spE mulfK //.
by rewrite mean_y addrK.
Qed.


End FitSimpleTheory.

(** ** The closed form, its optimum and the metrics of its fit *)

Section LeastSquaresTheory.

Variable F : realFieldType.
Variable rand : nat -> F.
Variable sqrt : F -> F.

Lemma residual_ss_ge0 m (y p : 'cV[F]_m) : 0 <= residual_ss y p.
Proof. by apply: sumr_ge0 => i _; exact: sqr_ge0. Qed.

Lemma total_ss_ge0 m (y : 'cV[F]_m) : 0 <= total_ss y.
Proof. by apply: sumr_ge0 => i _; exact: sqr_ge0. Qed.

(** The residual of the normal-equation solution is orthogonal to the
    columns of the design matrix. *)
Lemma normal_residual_orthogonal m k (Xb : 'M[F]_(m, k)) (y : 'cV[F]_m) :
  Xb^T *m Xb \in unitmx ->
  Xb^T *m (y - Xb *m (invmx (Xb^T *m Xb) *m Xb^T *m y)) = 0.
Proof.
by move=> G_unit; rewrite mulmxBr mulmxA normal_equation_solution // subrr.
Qed.

Lemma dot_tr m (r v : 'cV[F]_m) :
  (r^T *m v) ord0 ord0 = \sum_(i < m) r i ord0 * v i ord0.
Proof. by rewrite mxE; apply: eq_bigr => i _; rewrite mxE. Qed.

Lemma rss_orthogonal m k (Xb : 'M[F]_(m, k)) (y : 'cV[F]_m)
    (theta0 theta : 'cV[F]_k) :
  Xb^T *m (y - Xb *m theta0) = 0 ->
  residual_ss y (Xb *m theta) =
  residual_ss y (Xb *m theta0) +
  \sum_(i < m) ((Xb *m (theta - theta0)) i ord0) ^+ 2.
Proof.
move=> orth; pose r := y - Xb *m theta0; pose v := Xb *m (theta - theta0).
have cross : \sum_(i < m) r i ord0 * v i ord0 = 0.
  rewrite -dot_tr /v mulmxA.
  have -> : r^T *m Xb = (Xb^T *m r)^T by rewrite trmx_mul trmxK.
  by rewrite orth trmx0 mul0mx mxE.
have -> : residual_ss y (Xb *m theta) =
          \sum_(i < m) ((r i ord0) ^+ 2 + (v i ord0) ^+ 2
                        - 2 * (r i ord0 * v i ord0)).
  apply: eq_bigr => i _.
  have -> : y i ord0 - (Xb *m theta) i ord0 = r i ord0 - v i ord0.
    by rewrite /r /v mulmxBr !mxE; ring.
  by ring.
rewrite sumrB big_split /= -mulr_sumr cross mulr0 subr0; congr (_ + _).
by apply: eq_bigr => i _; rewrite /r !mxE.
Qed.

Lemma rss_least m k (Xb : 'M[F]_(m, k)) (y : 'cV[F]_m) (theta : 'cV[F]_k) :
  Xb^T *m Xb \in unitmx ->
  residual_ss y (Xb *m (invmx (Xb^T *m Xb) *m Xb^T *m y)) <=
  residual_ss y (Xb *m theta).
Proof.
move=> G_unit.
rewrite (rss_orthogonal theta (normal_residual_orthogonal y G_unit)) lerDl.
by apply: sumr_ge0 => i _; exact: sqr_ge0.
Qed.

(** Property X4. After a closed-form fit the predictions on the training
    data have the least residual sum of squares that any intercept and
    coefficients can reach. *)
Theorem least_squares_minimises_rss m n (X : features F m n) (y : 'cV[F]_m)
    (lr : F) (iters : nat) (w0 : world F) :
  let Xb := with_bias (as_2d X) in
  Xb^T *m Xb \in unitmx ->
  exists w' (fitted : 'cV[F]_m),
    [/\ fit rand X y "least_squares" lr iters w0 = (Ret None, w'),
        predict X w' = (Ret fitted, w') &
        forall theta : 'cV[F]_(1 + n),
          residual_ss y fitted <= residual_ss y (Xb *m theta)].
Proof.
move=> Xb G_unit.
have [fitE predE] := @fit_then_predict _ rand _ _ X y lr iters w0 G_unit.
do 2!eexists; split; [exact: fitE | exact: predE |] => theta.
exact: rss_least.
Qed.

(** The constant prediction [mean(y)] is within reach of the model, and
    its residual sum of squares is the total sum of squares. *)
Lemma total_ss_as_rss m n (X : 'M[F]_(m, n)) (y : 'cV[F]_m) :
  total_ss y = residual_ss y (with_bias X *m np_r_ (mean y) 0).
Proof.
apply: eq_bigr => i _; rewrite with_bias_np_r_.
have -> : \sum_(j < n) X i j * (0 : 'cV[F]_n) j ord0 = 0.
  by apply: big1 => j _; rewrite mxE mulr0.
by rewrite addr0.
Qed.

(** Property X5. Fit by the closed form, predict on the training data,
    evaluate: the coefficient of determination lies between 0 and 1. *)
Theorem closed_form_R2_range m n (X : features F m n) (y : 'cV[F]_m)
    (lr : F) (iters : nat) (w0 : world F) :
  let Xb := with_bias (as_2d X) in
  Xb^T *m Xb \in unitmx ->
  (exists i j, y i ord0 != y j ord0) ->
  exists w' (fitted : 'cV[F]_m) (r2 : F),
    [/\ fit rand X y "least_squares" lr iters w0 = (Ret None, w'),
        predict X w' = (Ret fitted, w'),
        R2 (evaluate_regression sqrt y fitted) = Fin r2 &
        0 <= r2 <= 1].
Proof.
move=> Xb G_unit y_neq.
have [fitE predE] := @fit_then_predict _ rand _ _ X y lr iters w0 G_unit.
have tss_neq0 : total_ss y != 0.
  case: y_neq => i [j y_neq]; apply: contraNneq y_neq => /total_ss_eq0 y_eq.
  exact/eqP.
have tss_gt0 : 0 < total_ss y by rewrite lt0r tss_neq0 total_ss_ge0.
do 3!eexists; split; [exact: fitE | exact: predE | |].
  by rewrite R2_E (negPf tss_neq0).
rewrite subr_ge0 ler_pdivrMr // mul1r lerBlDr lerDl.
rewrite divr_ge0 ?residual_ss_ge0 ?total_ss_ge0 // andbT.
by rewrite (total_ss_as_rss (as_2d X)) rss_least.
Qed.

End LeastSquaresTheory.

(** ** The life of the model: unfitted, fitted, fitted again *)

Section LifecycleTheory.

Variable F : realFieldType.
Variable rand : nat -> F.

Local Arguments gd_params : simpl never.

(** Property X6. [predict] only reads: whatever it is called on and however
    it ends, the model, the generator and the output are as before. On a
    model that lacks its coefficients or its intercept, a new one in
    particular, it ends with [ValueError]. *)
Theorem predict_never_writes m n (X : features F m n) (w : world F) :
  (predict X w).2 = w /\
  (coefficients (self w) = None \/ intercept (self w) = None ->
   (predict X w).1 = Raise ValueError).
Proof.
rewrite /predict /bind /get_intercept /get_coefficients.
case: (coefficients _) => [c|]; case: (intercept _) => [b|] /=;
  try by split=> //; case.
by case: ifP => _; split=> //; case.
Qed.

(** Property X7. A closed-form fit replaces what an earlier fit stored: to
    fit on [(X1, y1)], with or without success, and then on [(X2, y2)]
    leaves the world that fitting on [(X2, y2)] alone leaves. *)
Theorem fit_least_squares_replaces m1 m2 n1 n2
    (X1 : features F m1 n1) (y1 : 'cV[F]_m1)
    (X2 : features F m2 n2) (y2 : 'cV[F]_m2) (lr : F) (iters : nat)
    (w : world F) :
  let Xb2 := with_bias (as_2d X2) in
  Xb2^T *m Xb2 \in unitmx ->
  let w1 := (fit rand X1 y1 "least_squares" lr iters w).2 in
  fit rand X2 y2 "least_squares" lr iters w1 =
  fit rand X2 y2 "least_squares" lr iters w.
Proof.
move=> Xb2 G2_unit /=.
have [G1_unit|G1_sing] :=
  boolP ((with_bias (as_2d X1))^T *m with_bias (as_2d X1) \in unitmx).
  by rewrite !fit_least_squares_run.
by have [_ ->] := @fit_least_squares_singular _ rand _ _ X1 y1 lr iters w G1_sing.
Qed.

(** *** Gradient descent at its edges *)

Lemma fit_gradient_descent_init m n (X : 'M[F]_(m, 1 + n)) (y : 'cV[F]_m) lr
    (iterations : nat) (w : world F) :
  fit_gradient_descent rand X y lr iterations w =
  for_range (iota 0 iterations) (gd_epoch X y lr) ([::], [::])
    (World (regressor_of (gd_init rand n (rng w))) (rng w + n).+1 (stdout w)).
Proof.
by rewrite /fit_gradient_descent /bind /= -regressor_of_np_r_.
Qed.

(** Property X8. With no iteration at all the model is still replaced by the
    random initial parameters, [n + 1] numbers are drawn and the histories
    are empty, whatever the data. *)
Theorem gradient_descent_zero_iterations m n (X : features F m n)
    (y : 'cV[F]_m) (lr : F) (w : world F) :
  fit rand X y "gradient_descent" lr 0 w =
  (Ret (Some ([::], [::])),
   {| self := regressor_of (gd_init rand n (rng w));
      rng := (rng w + n).+1; stdout := stdout w |}).
Proof. by rewrite /fit /= /bind fit_gradient_descent_init. Qed.

(** Property X9. On a data set without observations the first pass stops on
    Python's division [2 / m]; by then the model has been replaced by the
    random initial parameters. *)
Theorem gradient_descent_no_observation n (X : features F 0 n)
    (y : 'cV[F]_0) (lr : F) (iterations : nat) (w : world F) :
  (0 < iterations)%N ->
  fit rand X y "gradient_descent" lr iterations w =
  (Raise ZeroDivisionError,
   {| self := regressor_of (gd_init rand n (rng w));
      rng := (rng w + n).+1; stdout := stdout w |}).
Proof.
case: iterations => // k _.
rewrite /fit /= /bind fit_gradient_descent_init.
rewrite -[iota 0 k.+1]/(0%N :: iota 1 k) [for_range _ _ _ _]/= /bind.
rewrite /gd_epoch /bind /get_intercept /get_coefficients /=.
by rewrite (size_seq_of_col (dsubmx _)) eqxx.
Qed.

(** Property X10. What gradient descent prints and draws: one line for every
    epoch that is a multiple of 100, with the loss recorded for that epoch,
    and [n + 1] random numbers whatever the number of iterations. *)
Theorem gradient_descent_log m n (X : features F m n) (y : 'cV[F]_m)
    (lr : F) (iterations : nat) (w : world F) :
  (0 < m)%N ->
  exists (loss_history : seq (np_float F)) (w_history : seq (seq F)) w',
    [/\ fit rand X y "gradient_descent" lr iterations w =
          (Ret (Some (loss_history, w_history)), w'),
        stdout w' = stdout w ++
          [seq (e, nth NonFinite loss_history e)
          | e <- iota 0 iterations & (e %% 100 == 0)%N] &
        rng w' = (rng w + n).+1].
Proof.
move=> m_gt0; do 3!eexists; split; first exact: fit_gradient_descent_run.
  rewrite /=; congr (_ ++ _); apply/eq_in_map => e.
  rewrite mem_filter mem_iota add0n => /andP[_ /andP[_ e_lt]].
  by rewrite (nth_map 0%N) ?size_iota // nth_iota.
by [].
Qed.

Lemma gd_params_lr0 m n (Xb : 'M[F]_(m, 1 + n)) (y : 'cV[F]_m) theta k :
  gd_params Xb y 0 theta k = theta.
Proof.
by elim: k => // k IHk; rewrite /gd_params iterS -/(gd_params _ _ _ _ _) IHk
  /gd_step scale0r subr0.
Qed.

Lemma map_constant (A B : Type) (c : B) (s : seq A) :
  [seq c | _ <- s] = nseq (size s) c.
Proof. by elim: s => //= _ s ->. Qed.

(** Property X11. With a learning rate of 0 nothing moves: every snapshot is
    the random initial parameters, every loss is their loss, and they are
    what the model holds in the end. *)
Theorem gradient_descent_zero_rate m n (X : features F m n) (y : 'cV[F]_m)
    (iterations : nat) (w : world F) :
  (0 < m)%N ->
  let Xb := with_bias (as_2d X) in
  let theta0 := gd_init rand n (rng w) in
  exists w',
    fit rand X y "gradient_descent" 0 iterations w =
      (Ret (Some (nseq iterations (Fin (mse Xb y theta0)),
                  nseq iterations (seq_of_col theta0))), w') /\
    self w' = regressor_of theta0.
Proof.
move=> m_gt0 Xb theta0; eexists; split.
  rewrite fit_gradient_descent_run // -/Xb -/theta0.
  congr (Ret (Some (_, _)), _).
  - rewrite -[in RHS](size_iota 0 iterations) -map_constant.
    by apply: eq_map => i; rewrite gd_params_lr0.
  - rewrite -[in RHS](size_iota 0 iterations) -map_constant.
    by apply: eq_map => i; rewrite gd_params_lr0.
by rewrite /= gd_params_lr0.
Qed.

(** Property X12. After gradient descent [predict] works with the last
    snapshot of the weight history. *)
Theorem gradient_descent_then_predict m n (X : features F m n)
    (y : 'cV[F]_m) (lr : F) (iterations : nat) (w : world F)
    m' (X' : features F m' n) :
  (0 < m)%N -> (0 < iterations)%N ->
  exists (loss_history : seq (np_float F)) (w_history : seq (seq F)) w',
    fit rand X y "gradient_descent" lr iterations w =
      (Ret (Some (loss_history, w_history)), w') /\
    predict X' w' =
      (Ret (with_bias (as_2d X') *m col_of_seq (1 + n) (last [::] w_history)),
       w').
Proof.
move=> m_gt0; case: iterations => // k _.
do 3!eexists; split; first exact: fit_gradient_descent_run.
rewrite predict_regressor_of -nth_last size_map size_iota -pred_Sn.
by rewrite (nth_map 0%N) ?size_iota // nth_iota // add0n seq_of_colK.
Qed.

Lemma gd_step_fixed m n (Xb : 'M[F]_(m, 1 + n)) (y : 'cV[F]_m) lr theta :
  (0 < m)%N -> lr != 0 ->
  (gd_step Xb y lr theta = theta) <-> ((Xb^T *m Xb) *m theta = Xb^T *m y).
Proof.
move=> m_gt0 lr_neq0.
have two_m : 2 / m%:R != 0 :> F.
  by rewrite mulf_neq0 ?invr_eq0 ?pnatr_eq0 -?lt0n.
rewrite /gd_step /gd_gradient /gd_error mulmxBr mulmxA; split.
  move=> /eqP; rewrite -subr_eq0 addrAC subrr add0r oppr_eq0.
  by rewrite !scalemx_eq0 (negPf lr_neq0) (negPf two_m) /= subr_eq0 => /eqP.
by move=> ->; rewrite subrr !scaler0 subr0.
Qed.

Lemma seq_of_col_inj k : injective (@seq_of_col F k).
Proof. by move=> u v /(congr1 (col_of_seq k)); rewrite !seq_of_colK. Qed.

(** Property X13. With a learning rate other than 0 a pass of gradient
    descent leaves the parameters where they were exactly when they solve
    the normal equation of the closed form. *)
Theorem gradient_descent_stationary m n (X : features F m n) (y : 'cV[F]_m)
    (lr : F) (iterations : nat) (w : world F) :
  (0 < m)%N -> lr != 0 ->
  let Xb := with_bias (as_2d X) in
  let initial := seq_of_col (gd_init rand n (rng w)) in
  exists (loss_history : seq (np_float F)) (w_history : seq (seq F)) w',
    fit rand X y "gradient_descent" lr iterations w =
      (Ret (Some (loss_history, w_history)), w') /\
    forall i, (i < iterations)%N ->
      let before := if i is i'.+1 then nth [::] w_history i' else initial in
      nth [::] w_history i = before <->
      (Xb^T *m Xb) *m col_of_seq (1 + n) before = Xb^T *m y.
Proof.
move=> m_gt0 lr_neq0 Xb initial.
do 3!eexists; split; first exact: fit_gradient_descent_run.
move=> i i_lt /=; rewrite (nth_map 0%N) ?size_iota // nth_iota // add0n.
set theta := gd_params _ _ _ _.
have -> : (if i is i'.+1
           then nth [::] [seq seq_of_col (theta i0.+1) | i0 <- iota 0 iterations] i'
           else initial) = seq_of_col (theta i).
  case: i i_lt => [|i] i_lt //.
  by rewrite (nth_map 0%N) ?size_iota 1?ltnW // nth_iota 1?ltnW.
rewrite seq_of_colK -(gd_step_fixed Xb y (theta i) m_gt0 lr_neq0).
have -> : theta i.+1 = gd_step Xb y lr (theta i) by [].
by split=> [/seq_of_col_inj|->].
Qed.


(** *** A learning rate that never lets the loss grow *)

Lemma cauchy_schwarz k (a b : 'I_k -> F) :
  (\sum_(j < k) a j * b j) ^+ 2 <=
  (\sum_(j < k) a j ^+ 2) * (\sum_(j < k) b j ^+ 2).
Proof.
set A := \sum_(j < k) a j ^+ 2; set B := \sum_(j < k) b j ^+ 2.
set C := \sum_(j < k) a j * b j.
have A_ge0 : 0 <= A by apply: sumr_ge0 => j _; exact: sqr_ge0.
have [A0|A_neq0] := eqVneq A 0.
  have a0 j : a j = 0.
    move/eqP: A0; rewrite psumr_eq0; first by move=> i _; exact: sqr_ge0.
    by move=> /allP/(_ j (mem_index_enum j)) /=; rewrite sqrf_eq0 => /eqP.
  rewrite A0 mul0r /C big1 ?expr0n // => j _.
  by rewrite a0 mul0r.
have A_gt0 : 0 < A by rewrite lt0r A_neq0.
have : 0 <= \sum_(j < k) (A * b j - C * a j) ^+ 2.
  by apply: sumr_ge0 => j _; exact: sqr_ge0.
have -> : \sum_(j < k) (A * b j - C * a j) ^+ 2 = A * (A * B - C ^+ 2).
  rewrite (eq_bigr (fun j => A ^+ 2 * b j ^+ 2 + C ^+ 2 * a j ^+ 2
                            - 2 * A * C * (a j * b j))) => [j _|]; first by ring.
  rewrite sumrB big_split /= -!mulr_sumr -/A -/B -/C.
  by ring.
by rewrite pmulr_rge0 // subr_ge0.
Qed.

Lemma entry_subZ m (a b : 'cV[F]_m) (c : F) i :
  (a - c *: b) i ord0 = a i ord0 - c * b i ord0.
Proof. by rewrite !mxE. Qed.

Lemma descent_identity m k (Xb : 'M[F]_(m, k)) (e : 'cV[F]_m) (g : 'cV[F]_k)
    (c lr : F) :
  Xb^T *m e = c *: g ->
  \sum_(i < m) ((e - lr *: (Xb *m g)) i ord0) ^+ 2 =
  \sum_(i < m) (e i ord0) ^+ 2 - 2 * lr * c * (\sum_(j < k) (g j ord0) ^+ 2)
  + lr ^+ 2 * \sum_(i < m) ((Xb *m g) i ord0) ^+ 2.
Proof.
move=> gE; have [v vE] : exists v, v = Xb *m g by exists (Xb *m g).
rewrite -!vE.
have cross : \sum_(i < m) e i ord0 * v i ord0 =
             c * \sum_(j < k) (g j ord0) ^+ 2.
  rewrite -dot_tr vE mulmxA.
  have -> : e^T *m Xb = (Xb^T *m e)^T by rewrite trmx_mul trmxK.
  rewrite gE linearZ /= -scalemxAl mxE dot_tr.
  by rewrite (eq_bigr (fun j => g j ord0 ^+ 2)) // => j _; rewrite expr2.
rewrite (eq_bigr (fun i => (e i ord0) ^+ 2 + lr ^+ 2 * (v i ord0) ^+ 2
                           - 2 * lr * (e i ord0 * v i ord0))) => [i _|].
  by rewrite entry_subZ; ring.
rewrite sumrB big_split /= -!mulr_sumr cross.
by ring.
Qed.

Lemma mse_step_le m n (Xb : 'M[F]_(m, 1 + n)) (y : 'cV[F]_m) (lr : F) theta :
  (0 < m)%N -> 0 <= lr -> lr * frobenius_ss Xb <= m%:R ->
  mse Xb y (gd_step Xb y lr theta) <= mse Xb y theta.
Proof.
move=> m_gt0 lr_ge0 lr_small.
have m_R_gt0 : 0 < m%:R :> F by rewrite ltr0n.
have gE : Xb^T *m gd_error Xb y theta = (m%:R / 2) *: gd_gradient Xb y theta.
  rewrite /gd_gradient scalerA.
  have -> : m%:R / 2 * (2 / m%:R) = 1 :> F.
    by rewrite mulrA divfK ?divff // ?pnatr_eq0 -?lt0n.
  by rewrite scale1r.
have stepE : gd_error Xb y (gd_step Xb y lr theta) =
             gd_error Xb y theta - lr *: (Xb *m gd_gradient Xb y theta).
  by rewrite /gd_error /gd_step mulmxBr -scalemxAr addrAC.
rewrite /mse ler_pM2r ?invr_gt0 // stepE (descent_identity lr gE).
move: (gd_gradient Xb y theta) => g.
set G := \sum_(j < 1 + n) (g j ord0) ^+ 2.
have G_ge0 : 0 <= G by apply: sumr_ge0 => j _; exact: sqr_ge0.
have v_le : \sum_(i < m) ((Xb *m g) i ord0) ^+ 2 <= frobenius_ss Xb * G.
  rewrite /frobenius_ss mulr_suml; apply: ler_sum => i _.
  by rewrite mxE; exact: cauchy_schwarz.
rewrite -addrA gerDl addrC subr_le0 expr2 -mulrA.
have -> : 2 * lr * (m%:R / 2) * G = lr * (m%:R * G) by field.
apply: ler_wpM2l => //; apply: le_trans (ler_wpM2l lr_ge0 v_le) _.
by rewrite mulrA ler_wpM2r.
Qed.

(** Property X14. When the learning rate is not negative and at most [m]
    over the sum of the squares of the entries of the bias-augmented design
    matrix, no pass of gradient descent increases the loss. *)
Theorem gradient_descent_loss_decreases m n (X : features F m n)
    (y : 'cV[F]_m) (lr : F) (iterations : nat) (w : world F) :
  (0 < m)%N -> 0 <= lr ->
  lr * frobenius_ss (with_bias (as_2d X)) <= m%:R ->
  exists (loss_history : seq (np_float F)) (w_history : seq (seq F)) w',
    fit rand X y "gradient_descent" lr iterations w =
      (Ret (Some (loss_history, w_history)), w') /\
    forall i, (i.+1 < iterations)%N ->
      exists before after : F,
        [/\ nth NonFinite loss_history i = Fin before,
            nth NonFinite loss_history i.+1 = Fin after &
            after <= before].
Proof.
move=> m_gt0 lr_ge0 lr_small.
do 3!eexists; split; first exact: fit_gradient_descent_run.
move=> i i_lt; do 2!eexists; split.
- by rewrite (nth_map 0%N) ?size_iota 1?ltnW.
- by rewrite (nth_map 0%N) ?size_iota.
- rewrite nth_iota // nth_iota 1?ltnW // !add0n.
  exact: mse_step_le.
Qed.


End LifecycleTheory.

(** ** The metrics *)

Section MetricsTheory.

Variable F : realFieldType.
Variable sqrt : F -> F.

Lemma residual_ss_eq0 m (y p : 'cV[F]_m) :
  (residual_ss y p == 0) = (p == y).
Proof.
rewrite psumr_eq0; first by move=> i _; exact: sqr_ge0.
apply/allP/eqP => [all0|-> i _]; last by rewrite /= subrr expr0n.
apply/colP => i; have := all0 i (mem_index_enum i).
by rewrite /= sqrf_eq0 subr_eq0 => /eqP.
Qed.

Lemma MAE_E m (y_true y_pred : 'cV[F]_m) :
  (0 < m)%N ->
  MAE (evaluate_regression sqrt y_true y_pred) =
  Fin ((\sum_(i < m) `|y_true i ord0 - y_pred i ord0|) / m%:R).
Proof.
move=> m_gt0; rewrite /evaluate_regression /= arr_sub_fin arr_abs_fin.
rewrite np_mean_fin //; congr (Fin (_ / _)).
by apply: eq_bigr => i _; rewrite !mxE.
Qed.

(** Property X15. On arrays without entries the three metrics are not
    numbers. *)
Theorem evaluate_regression_empty (y_true y_pred : 'cV[F]_0) :
  evaluate_regression sqrt y_true y_pred =
  {| R2 := NonFinite; RMSE := NonFinite; MAE := NonFinite |}.
Proof.
by rewrite /evaluate_regression /np_mean !sum_fin_arr0 /= eqxx.
Qed.

(** Property X16. When the true values are not all the same, R2 is a number,
    at most 1, and 1 exactly for exact predictions. *)
Theorem R2_at_most_one m (y_true y_pred : 'cV[F]_m) :
  (exists i j, y_true i ord0 != y_true j ord0) ->
  exists r2 : F,
    [/\ R2 (evaluate_regression sqrt y_true y_pred) = Fin r2,
        r2 <= 1 &
        r2 = 1 <-> y_pred = y_true].
Proof.
move=> [i [j y_neq]].
have tss_neq0 : total_ss y_true != 0.
  by apply: contraNneq y_neq => /total_ss_eq0 y_eq; exact/eqP.
have tss_gt0 : 0 < total_ss y_true by rewrite lt0r tss_neq0 total_ss_ge0.
exists (1 - residual_ss y_true y_pred / total_ss y_true); split.
- by rewrite R2_E (negPf tss_neq0).
- by rewrite gerBl divr_ge0 ?residual_ss_ge0 ?total_ss_ge0.
split=> [/eqP|->]; last first.
  have /eqP -> : residual_ss y_true y_true == 0 by rewrite residual_ss_eq0.
  by rewrite mul0r subr0.
rewrite -subr_eq0 addrAC subrr add0r oppr_eq0 mulf_eq0 invr_eq0.
by rewrite (negPf tss_neq0) orbF residual_ss_eq0 => /eqP.
Qed.

(** Property X17. Predicting the mean of the true values everywhere gives R2
    = 0. *)
Theorem R2_of_mean_prediction m (y_true : 'cV[F]_m) :
  (exists i j, y_true i ord0 != y_true j ord0) ->
  R2 (evaluate_regression sqrt y_true (const_mx (mean y_true))) = Fin 0.
Proof.
move=> [i [j y_neq]].
have tss_neq0 : total_ss y_true != 0.
  by apply: contraNneq y_neq => /total_ss_eq0 y_eq; exact/eqP.
rewrite R2_E (negPf tss_neq0).
have -> : residual_ss y_true (const_mx (mean y_true)) = total_ss y_true.
  by apply: eq_bigr => k _; rewrite mxE.
by rewrite divff // subrr.
Qed.

(** Property X18. MAE is a number that is not negative, and 0 exactly for
    exact predictions. *)
Theorem MAE_zero_iff_exact m (y_true y_pred : 'cV[F]_m) :
  (0 < m)%N ->
  exists mae : F,
    [/\ MAE (evaluate_regression sqrt y_true y_pred) = Fin mae,
        0 <= mae &
        mae = 0 <-> y_pred = y_true].
Proof.
move=> m_gt0; eexists; split; first exact: MAE_E.
  by rewrite divr_ge0 ?ler0n //; apply: sumr_ge0 => i _; exact: normr_ge0.
have m_neq0 : m%:R != 0 :> F by rewrite pnatr_eq0 -lt0n.
split=> [/eqP|->].
  rewrite mulf_eq0 invr_eq0 (negPf m_neq0) orbF psumr_eq0; last first.
    move=> /allP abs0; apply/colP => i.
    have := abs0 i (mem_index_enum i).
    by rewrite /= normr_eq0 subr_eq0 => /eqP.
  by move=> i _; exact: normr_ge0.
by rewrite big1 ?mul0r // => i _; rewrite subrr normr0.
Qed.

Lemma total_ss_shift m (y : 'cV[F]_m) (c : F) :
  total_ss (y + const_mx c) = total_ss y.
Proof.
case: m y => [|m] y; first by rewrite /total_ss !big_ord0.
apply: eq_bigr => i _; congr (_ ^+ 2).
rewrite (eq_bigr (fun j => y j ord0 + c)) => [j _|]; first by rewrite !mxE.
rewrite big_split /= sumr_const card_ord -[c *+ _]mulr_natr mulrDl mulfK.
  by rewrite pnatr_eq0.
by rewrite !mxE; ring.
Qed.

(** Property X19. Adding one constant to the true and to the predicted
    values changes none of the three metrics. *)
Theorem evaluate_regression_shift m (y_true y_pred : 'cV[F]_m) (c : F) :
  evaluate_regression sqrt (y_true + const_mx c) (y_pred + const_mx c) =
  evaluate_regression sqrt y_true y_pred.
Proof.
have diffE : y_true + const_mx c - (y_pred + const_mx c) = y_true - y_pred.
  by rewrite opprD addrACA subrr addr0.
rewrite /evaluate_regression !ss_totalE !arr_sub_fin diffE.
by rewrite total_ss_shift.
Qed.

End MetricsTheory.

(** ** The encoder at its edges, and reading its result back *)

Section EncoderEdges.

Variable disp : Order.disp_t.
Variable V : orderType disp.
Variable cast_int : nat -> V.

Notation x0 := (cast_int 0).
Notation descending := (fun i j : int => (j <= i)%R).

Lemma descending_total : total descending.
Proof. by move=> i j; rewrite orbC; exact: le_total. Qed.

Lemma descending_trans : transitive descending.
Proof. by move=> j i k /= j_le k_le; exact: le_trans k_le j_le. Qed.

Lemma descending_anti : antisymmetric descending.
Proof. by move=> i j /= le_ij; apply: le_anti; rewrite andbC. Qed.

(** The index that the loop takes first is the greatest of the list. *)
Lemma sort_descending_head (idx : seq int) (i : int) :
  i \in idx ->
  exists first rest,
    [/\ sort descending idx = first :: rest, first \in idx & (i <= first)%R].
Proof.
move=> i_idx.
have sub f : f \in sort descending idx -> f \in idx by rewrite mem_sort.
have : i \in sort descending idx by rewrite mem_sort.
have := sort_sorted descending_total idx.
case: (sort _ _) sub => [//|first rest] sub /= first_max i_in.
exists first, rest; split=> //; first exact/sub/mem_head.
move: i_in; rewrite in_cons => /orP[/eqP-> //|i_in].
exact: (allP (order_path_min descending_trans first_max)).
Qed.

Lemma norm_index_in_range (n : nat) (i : int) :
  isSome (norm_index n i) = (- n%:Z <= i < n%:Z)%R.
Proof.
case: i => k; rewrite /norm_index; case: ifP => k_n /=.
- by rewrite ltz_nat k_n (le_trans _ (lez_nat 0 k)) // oppr_le0.
- by rewrite ltz_nat k_n andbF.
- by rewrite NegzE lerN2 lez_nat k_n (lt_le_trans _ (lez_nat 0 n)) // oppr_lt0.
- by rewrite NegzE lerN2 lez_nat k_n.
Qed.

(** Property X20. The order in which the caller lists the indices has no
    effect. *)
Theorem one_hot_encode_order_irrelevant (h : heap V) (X : ref)
    (indices1 indices2 : seq int) (drop_first : bool) :
  perm_eq indices1 indices2 ->
  one_hot_encode cast_int X indices1 drop_first h =
  one_hot_encode cast_int X indices2 drop_first h.
Proof.
move=> /(perm_sortP descending_total descending_trans descending_anti) eq_sort.
by rewrite /one_hot_encode eq_sort.
Qed.

(** Property X21. One index at or beyond the number of columns, anywhere in
    the list, makes the call fail with [IndexError] in the first pass of the
    loop: nothing has been encoded, the copy of the input is the only new
    array. *)
Theorem one_hot_encode_index_too_large (h : heap V) (X : ref)
    (indices : seq int) (drop_first : bool) (k : nat) :
  Posz k \in indices -> (ncols (deref h X) <= k)%N ->
  one_hot_encode cast_int X indices drop_first h =
  (Raise IndexError, rcons h (deref h X)).
Proof.
move=> /sort_descending_head[first [rest [sortE _ k_le]]] k_ge.
rewrite /one_hot_encode /alloc sortE /= deref_alloc_new /encode_column.
case: first k_le {sortE} => [k'|k'] //=.
by rewrite lez_nat ltnNge => /(leq_trans k_ge) ->.
Qed.

(** Property X22. An array without rows cannot be encoded: with an index to
    encode the call always fails, with [IndexError] when [drop_first] is
    set, and with [ValueError] when it is not and the indices are in range. *)
Theorem one_hot_encode_no_rows (h : heap V) (X : ref) (indices : seq int)
    (drop_first : bool) :
  let A := deref h X in
  nrows A = 0%N -> indices != [::] ->
  exists e,
    [/\ one_hot_encode cast_int X indices drop_first h = (Raise e, rcons h A),
        drop_first -> e = IndexError &
        all (fun i : int => - (ncols A)%:Z <= i < (ncols A)%:Z)%R indices ->
        e = if drop_first then IndexError else ValueError].
Proof.
move=> A /size0nil rows0 indices_neq0.
have [i0 i0_in] : exists i0, i0 \in indices.
  by case: (indices) indices_neq0 => [//|i0 rest] _; exists i0; exact: mem_head.
have [first [rest [sortE first_in _]]] := sort_descending_head i0_in.
rewrite /one_hot_encode /alloc sortE /= deref_alloc_new /encode_column.
have := norm_index_in_range (ncols A) first.
case: (norm_index _ _) => [j|] /= in_range.
  rewrite /column rows0 /=.
  exists (if drop_first then IndexError else ValueError); split=> //.
  by move=> ->.
exists IndexError; split=> // /allP all_in.
by have := all_in _ first_in; rewrite -in_range.
Qed.

Lemma listed_positions (n : nat) (ks : seq nat) :
  uniq ks -> all (fun k => k < n)%N ks ->
  perm_eq [seq c <- iota 0 n | c \in ks] ks.
Proof.
move=> ks_uniq ks_lt.
apply: uniq_perm => //; first by rewrite filter_uniq ?iota_uniq.
move=> c; rewrite mem_filter mem_iota add0n /=.
by case c_in: (c \in ks) => //=; exact: (allP ks_lt).
Qed.

Lemma cell_offset_count (A : ndarray V) (ks : seq nat) drop_first :
  uniq ks -> all (fun k => k < ncols A)%N ks ->
  cell_offset cast_int drop_first A ks (ncols A) =
  (ncols A - size ks +
   \sum_(k <- ks) (size (undup (column cast_int A k)) - drop_first))%N.
Proof.
move=> ks_uniq ks_lt; have ks_perm := listed_positions ks_uniq ks_lt.
rewrite /cell_offset sumnE big_map.
rewrite (bigID (fun c => c \in ks)) /= addnC; congr (_ + _)%N.
  rewrite (eq_bigr (fun=> 1%N)) => [c /negPf c_unl|].
    by rewrite /cell_width c_unl.
  rewrite sum1_count -(perm_size ks_perm) size_filter.
  by rewrite -[X in (X - _)%N](size_iota 0) -(count_predC (mem ks)) addKn.
rewrite -big_filter (perm_big _ ks_perm) /=.
rewrite big_seq [RHS]big_seq; apply: eq_bigr => k k_in.
rewrite /cell_width k_in /categories size_np_unique.
by case: (drop_first); rewrite ?subn1 ?subn0.
Qed.

(** Property X23. The result is a rectangular array with the rows of the
    input; every listed column has given way to one column for each of its
    distinct values (one less with [drop_first]). *)
Theorem one_hot_encode_shape (h : heap V) (X : ref) (ks : seq nat)
    (drop_first : bool) :
  let A := deref h X in
  well_shaped A -> (0 < nrows A)%N ->
  uniq ks -> all (fun k => k < ncols A)%N ks ->
  exists h' X',
    [/\ one_hot_encode cast_int X [seq Posz k | k <- ks] drop_first h =
          (Ret X', h'),
        well_shaped (deref h' X'),
        nrows (deref h' X') = nrows A &
        ncols (deref h' X') =
          (ncols A - size ks +
           \sum_(k <- ks) (size (undup (column cast_int A k)) - drop_first))%N].
Proof.
move=> A A_shaped A_rows ks_uniq ks_lt.
have [h' [X' [runE X'E _ _]]] :=
  one_hot_encode_encoded cast_int drop_first A_shaped A_rows ks_uniq ks_lt.
exists h', X'; split=> //; rewrite X'E /=.
- apply/allP => r' /mapP[r _ ->].
  by rewrite (size_encoded_row cast_int drop_first A ks r).
- by rewrite /nrows /= size_map.
- exact: cell_offset_count.
Qed.

Lemma index_one_hot_row (u : seq V) (v : V) :
  cast_int 0 != cast_int 1 ->
  index (cast_int 1) [seq cast_int x | x <- one_hot_row u v] = index v u.
Proof.
move=> /negPf cast_int_01; elim: u => //= c u ->; rewrite [c == v]eq_sym.
by case: (v == c); rewrite /= ?eqxx // cast_int_01.
Qed.

Lemma all_zero_one_hot_row (u : seq V) (v : V) :
  cast_int 0 != cast_int 1 ->
  all (pred1 (cast_int 0)) [seq cast_int x | x <- one_hot_row u v] = (v \notin u).
Proof.
move=> /negPf cast_int_01; elim: u => //= c u ->; rewrite in_cons negb_or.
by case: (v == c); rewrite /= ?eqxx // eq_sym cast_int_01.
Qed.

(** Property X24. Without [drop_first] the encoding can be read back: in
    every row the position of the 1 among the indicators of a listed column
    is the position of the value of that column among its sorted distinct
    values. *)
Theorem one_hot_encode_decodes (h : heap V) (X : ref) (ks : seq nat) :
  let A := deref h X in
  cast_int 0 != cast_int 1 ->
  well_shaped A -> (0 < nrows A)%N ->
  uniq ks -> all (fun k => k < ncols A)%N ks ->
  exists h' X',
    one_hot_encode cast_int X [seq Posz k | k <- ks] false h = (Ret X', h') /\
    forall i j, (i < nrows A)%N -> j \in ks ->
      let unique_values := np_unique (column cast_int A j) in
      let r' := nth [::] (rows (deref h' X')) i in
      let cells := take (size unique_values)
                        (drop (cell_offset cast_int false A ks j) r') in
      nth x0 unique_values (index (cast_int 1) cells) =
      nth x0 (nth [::] (rows A) i) j.
Proof.
move=> A cast_int_01 A_shaped A_rows ks_uniq ks_lt.
have [h' [X' [runE X'E _ _]]] :=
  one_hot_encode_encoded cast_int false A_shaped A_rows ks_uniq ks_lt.
exists h', X'; split=> // i j i_lt j_in unique_values r' cells.
have j_lt : (j < ncols A)%N by exact: (allP ks_lt).
have cellsE : cells = [seq cast_int x | x <-
    one_hot_row unique_values (nth x0 (nth [::] (rows A) i) j)].
  rewrite /cells /r' X'E /= (nth_map [::]) //.
  have := encoded_cell_at cast_int false ks (nth [::] (rows A) i) j_lt.
  by rewrite /cell_width /encoded_cell j_in.
rewrite cellsE index_one_hot_row // nth_index // mem_np_unique.
by apply: (map_f (fun r => nth x0 r j)); exact: mem_nth.
Qed.

(** Property X25. With [drop_first] the level that loses its column is the
    least value of the column, and a row has no 1 among the indicators of
    the column exactly when it holds that value. *)
Theorem one_hot_encode_dropped_level (h : heap V) (X : ref) (ks : seq nat) :
  let A := deref h X in
  cast_int 0 != cast_int 1 ->
  well_shaped A -> (0 < nrows A)%N ->
  uniq ks -> all (fun k => k < ncols A)%N ks ->
  exists h' X',
    one_hot_encode cast_int X [seq Posz k | k <- ks] true h = (Ret X', h') /\
    forall i j, (i < nrows A)%N -> j \in ks ->
      let unique_values := np_unique (column cast_int A j) in
      let dropped := head x0 unique_values in
      let r' := nth [::] (rows (deref h' X')) i in
      let cells := take (size unique_values).-1
                        (drop (cell_offset cast_int true A ks j) r') in
      (forall v, v \in column cast_int A j -> (dropped <= v)%O) /\
      all (pred1 (cast_int 0)) cells =
        (nth x0 (nth [::] (rows A) i) j == dropped).
Proof.
move=> A cast_int_01 A_shaped A_rows ks_uniq ks_lt.
have [h' [X' [runE X'E _ _]]] :=
  one_hot_encode_encoded cast_int true A_shaped A_rows ks_uniq ks_lt.
exists h', X'; split=> // i j i_lt j_in unique_values dropped r' cells.
have j_lt : (j < ncols A)%N by exact: (allP ks_lt).
set v := nth x0 (nth [::] (rows A) i) j.
have v_in : v \in unique_values.
  rewrite mem_np_unique; apply: (map_f (fun r => nth x0 r j)).
  exact: mem_nth.
have cellsE : cells = [seq cast_int x | x <-
    behead (one_hot_row unique_values v)].
  rewrite /cells /r' X'E /= (nth_map [::]) //.
  have := encoded_cell_at cast_int true ks (nth [::] (rows A) i) j_lt.
  by rewrite /cell_width /encoded_cell j_in.
have unique_uniq : uniq unique_values by exact: np_unique_uniq.
have unique_sorted : sorted <=%O unique_values.
  exact: (sort_sorted (@le_total _ V)).
have mem_unique : unique_values =i column cast_int A j.
  exact: mem_np_unique.
rewrite cellsE /dropped {cellsE cells dropped}.
case: unique_values v_in mem_unique unique_uniq unique_sorted
  => [//|c u] v_in mem_unique /= /andP[c_notin _] c_min; split.
  move=> w; rewrite -mem_unique in_cons => /orP[/eqP-> //|w_in].
  exact: (allP (order_path_min le_trans c_min)).
rewrite -/(one_hot_row u v) all_zero_one_hot_row //.
move: v_in; rewrite in_cons; case: eqP => [->|_] /=; first by rewrite c_notin.
by move=> ->.
Qed.

End EncoderEdges.

(** ** The further properties on concrete data *)

Lemma ex_line_X_varies : exists i j, ex_line_X i ord0 != ex_line_X j ord0.
Proof. by exists ord0, (lift ord0 ord0); rewrite !mxE. Qed.

Lemma ex_flat_y_varies : exists i j, ex_flat_y i ord0 != ex_flat_y j ord0.
Proof. by exists ord0, (lift ord0 ord0); rewrite !mxE. Qed.

Lemma ex_feature_varies : exists i j, ex_feature i ord0 != ex_feature j ord0.
Proof. by exists ord0, (lift ord0 ord0); rewrite !mxE. Qed.

Lemma ex_line_gram_unit :
  (with_bias ex_line_X)^T *m with_bias ex_line_X \in unitmx.
Proof. exact: gram_unit ex_line_Xb_full. Qed.

Lemma ex_flat_frobenius : frobenius_ss (with_bias ex_flat_X) = 4.
Proof.
rewrite /frobenius_ss with_bias_rows // !big_ord_recl !big_ord0 !mxE /=.
by lra.
Qed.

(** X1 on the four points of the line *)
Lemma fit_simple_least_squares_witness :
  (exists i j, ex_line_X i ord0 != ex_line_X j ord0) /\
  exists w',
    fit_simple (Arr2D ex_line_X) ex_line_y ex_world = Some (Ret tt, w') /\
    fit ex_rand (Arr2D ex_line_X) ex_line_y "least_squares" (1 / 100) 1000
      ex_world = (Ret None, w').
Proof.
split; first exact: ex_line_X_varies.
have [simpleE fitE] :=
  @fit_simple_least_squares rat ex_rand 4 (Arr2D ex_line_X) ex_line_y
    (1 / 100) 1000 ex_world ex_line_X_varies.
by eexists; split; [exact: simpleE | exact: fitE].
Defined.


(** X3 on the line y = 0 + 2 x *)
Lemma fit_simple_exact_line_witness :
  fit_simple (Arr2D ex_line_X) (\col_i (0 + 2 * ex_line_X i ord0)) ex_world =
  Some (Ret tt, ex_fitted_world).
Proof.
exact: (@fit_simple_exact_line rat 4 (Arr2D ex_line_X) 0 2 ex_world
          ex_line_X_varies).
Defined.

(** X4 on the three flat observations *)
Lemma least_squares_minimises_rss_witness :
  exists w' (fitted : 'cV[rat]_3),
    [/\ fit ex_rand (Arr2D ex_flat_X) ex_flat_y "least_squares" (1 / 100) 1000
          ex_world = (Ret None, w'),
        predict (Arr2D ex_flat_X) w' = (Ret fitted, w') &
        forall theta : 'cV[rat]_(1 + 1),
          residual_ss ex_flat_y fitted <=
          residual_ss ex_flat_y (with_bias ex_flat_X *m theta)].
Proof.
exact: (@least_squares_minimises_rss rat ex_rand 3 1 (Arr2D ex_flat_X)
          ex_flat_y (1 / 100) 1000 ex_world ex_flat_gram_unit).
Defined.

(** X5 on the three flat observations *)
Lemma closed_form_R2_range_witness :
  exists w' (fitted : 'cV[rat]_3) (r2 : rat),
    [/\ fit ex_rand (Arr2D ex_flat_X) ex_flat_y "least_squares" (1 / 100) 1000
          ex_world = (Ret None, w'),
        predict (Arr2D ex_flat_X) w' = (Ret fitted, w'),
        R2 (evaluate_regression ex_sqrt ex_flat_y fitted) = Fin r2 &
        0 <= r2 <= 1].
Proof.
exact: (@closed_form_R2_range rat ex_rand ex_sqrt 3 1 (Arr2D ex_flat_X)
          ex_flat_y (1 / 100) 1000 ex_world ex_flat_gram_unit ex_flat_y_varies).
Defined.

(** X6 on a new regressor *)
Lemma predict_never_writes_witness :
  (predict (Arr1D ex_feature) ex_world).2 = ex_world /\
  (predict (Arr1D ex_feature) ex_world).1 = Raise ValueError.
Proof.
have [worldE raises] :=
  @predict_never_writes rat 2 1 (Arr1D ex_feature) ex_world.
by split; [exact: worldE | apply: raises; left].
Defined.

(** X7: the flat observations first, the line after them *)
Lemma fit_least_squares_replaces_witness :
  fit ex_rand (Arr2D ex_line_X) ex_line_y "least_squares" (1 / 100) 1000
    (fit ex_rand (Arr2D ex_flat_X) ex_flat_y "least_squares" (1 / 100) 1000
       ex_world).2 =
  fit ex_rand (Arr2D ex_line_X) ex_line_y "least_squares" (1 / 100) 1000
    ex_world.
Proof.
exact: (@fit_least_squares_replaces rat ex_rand 3 4 1 1 (Arr2D ex_flat_X)
          ex_flat_y (Arr2D ex_line_X) ex_line_y (1 / 100) 1000 ex_world
          ex_line_gram_unit).
Defined.

(** X9 on arrays without observations *)
Lemma gradient_descent_no_observation_witness :
  fit ex_rand (Arr2D (0 : 'M[rat]_(0, 1))) (0 : 'cV[rat]_0)
    "gradient_descent" (1 / 100) 1000 ex_world =
  (Raise ZeroDivisionError,
   {| self := regressor_of (gd_init ex_rand 1 0); rng := 2; stdout := [::] |}).
Proof.
exact: (@gradient_descent_no_observation rat ex_rand 1 (Arr2D 0) 0 (1 / 100)
          1000 ex_world isT).
Defined.

(** X10 on the three flat observations, two iterations *)
Lemma gradient_descent_log_witness :
  (0 < 3)%N /\
  exists (loss_history : seq (np_float rat)) (w_history : seq (seq rat)) w',
    [/\ fit ex_rand (Arr2D ex_flat_X) ex_flat_y "gradient_descent" (1 / 10) 2
          ex_world = (Ret (Some (loss_history, w_history)), w'),
        stdout w' = [:: (0%N, nth NonFinite loss_history 0)] &
        rng w' = 2%N].
Proof.
split; first by [].
have [lh [wh [w' [runE outE rngE]]]] :=
  @gradient_descent_log rat ex_rand 3 1 (Arr2D ex_flat_X) ex_flat_y (1 / 10) 2
    ex_world isT.
by exists lh, wh, w'; split; [exact: runE | exact: outE | exact: rngE].
Defined.

(** X11 on the three flat observations, two iterations *)
Lemma gradient_descent_zero_rate_witness :
  (0 < 3)%N /\
  exists w',
    fit ex_rand (Arr2D ex_flat_X) ex_flat_y "gradient_descent" 0 2 ex_world =
      (Ret (Some (nseq 2 (Fin (mse (with_bias ex_flat_X) ex_flat_y
                                (gd_init ex_rand 1 0))),
                  nseq 2 (seq_of_col (gd_init ex_rand 1 0)))), w') /\
    self w' = regressor_of (gd_init ex_rand 1 0).
Proof.
split; first by [].
exact: (@gradient_descent_zero_rate rat ex_rand 3 1 (Arr2D ex_flat_X) ex_flat_y
          2 ex_world isT).
Defined.

(** X12 on the three flat observations, then two new points *)
Lemma gradient_descent_then_predict_witness :
  [/\ (0 < 3)%N & (0 < 2)%N] /\
  exists (loss_history : seq (np_float rat)) (w_history : seq (seq rat)) w',
    fit ex_rand (Arr2D ex_flat_X) ex_flat_y "gradient_descent" (1 / 10) 2
      ex_world = (Ret (Some (loss_history, w_history)), w') /\
    predict (Arr1D ex_feature) w' =
      (Ret (with_bias ex_feature *m col_of_seq (1 + 1) (last [::] w_history)),
       w').
Proof.
split; first by [].
exact: (@gradient_descent_then_predict rat ex_rand 3 1 (Arr2D ex_flat_X)
          ex_flat_y (1 / 10) 2 ex_world 2 (Arr1D ex_feature) isT isT).
Defined.

(** X13 on the three flat observations: the first pass *)
Lemma gradient_descent_stationary_witness :
  [/\ (0 < 3)%N & (1 / 10 : rat) != 0] /\
  exists (loss_history : seq (np_float rat)) (w_history : seq (seq rat)) w',
    fit ex_rand (Arr2D ex_flat_X) ex_flat_y "gradient_descent" (1 / 10) 2
      ex_world = (Ret (Some (loss_history, w_history)), w') /\
    (nth [::] w_history 0 = seq_of_col (gd_init ex_rand 1 0) <->
     ((with_bias ex_flat_X)^T *m with_bias ex_flat_X) *m
       col_of_seq (1 + 1) (seq_of_col (gd_init ex_rand 1 0)) =
     (with_bias ex_flat_X)^T *m ex_flat_y).
Proof.
have lr_neq0 : (1 / 10 : rat) != 0 by [].
split; first by [].
have [lh [wh [w' [runE fixedE]]]] :=
  @gradient_descent_stationary rat ex_rand 3 1 (Arr2D ex_flat_X) ex_flat_y
    (1 / 10) 2 ex_world isT lr_neq0.
by exists lh, wh, w'; split; [exact: runE | exact: (fixedE 0%N isT)].
Defined.

(** X14 on the three flat observations: the first two losses *)
Lemma gradient_descent_loss_decreases_witness :
  [/\ (0 < 3)%N, (0 : rat) <= 1 / 10 &
      1 / 10 * frobenius_ss (with_bias ex_flat_X) <= 3%:R :> rat] /\
  exists (loss_history : seq (np_float rat)) (w_history : seq (seq rat)) w',
    fit ex_rand (Arr2D ex_flat_X) ex_flat_y "gradient_descent" (1 / 10) 2
      ex_world = (Ret (Some (loss_history, w_history)), w') /\
    exists before after : rat,
      [/\ nth NonFinite loss_history 0 = Fin before,
          nth NonFinite loss_history 1 = Fin after &
          after <= before].
Proof.
have lr_ge0 : (0 : rat) <= 1 / 10 by [].
have lr_small : 1 / 10 * frobenius_ss (with_bias ex_flat_X) <= 3%:R :> rat.
  by rewrite ex_flat_frobenius.
split; first by [].
have [lh [wh [w' [runE decreases]]]] :=
  @gradient_descent_loss_decreases rat ex_rand 3 1 (Arr2D ex_flat_X) ex_flat_y
    (1 / 10) 2 ex_world isT lr_ge0 lr_small.
by exists lh, wh, w'; split; [exact: runE | exact: (decreases 0%N isT)].
Defined.

(** X16 on a vector with two distinct values *)
Lemma R2_at_most_one_witness :
  (exists i j, ex_feature i ord0 != ex_feature j ord0) /\
  exists r2 : rat,
    [/\ R2 (evaluate_regression ex_sqrt ex_feature ex_const_y) = Fin r2,
        r2 <= 1 &
        r2 = 1 <-> ex_const_y = ex_feature].
Proof.
split; first exact: ex_feature_varies.
exact: (@R2_at_most_one rat ex_sqrt 2 ex_feature ex_const_y ex_feature_varies).
Defined.

(** X17 on a vector with two distinct values *)
Lemma R2_of_mean_prediction_witness :
  (exists i j, ex_feature i ord0 != ex_feature j ord0) /\
  R2 (evaluate_regression ex_sqrt ex_feature (const_mx (mean ex_feature))) =
  Fin 0.
Proof.
split; first exact: ex_feature_varies.
exact: (@R2_of_mean_prediction rat ex_sqrt 2 ex_feature ex_feature_varies).
Defined.

(** X18 on two vectors of length 2 *)
Lemma MAE_zero_iff_exact_witness :
  (0 < 2)%N /\
  exists mae : rat,
    [/\ MAE (evaluate_regression ex_sqrt ex_feature ex_const_y) = Fin mae,
        0 <= mae &
        mae = 0 <-> ex_const_y = ex_feature].
Proof.
split; first by [].
exact: (@MAE_zero_iff_exact rat ex_sqrt 2 ex_feature ex_const_y isT).
Defined.

(** X20 on the two columns of the table, listed both ways *)
Lemma one_hot_encode_order_irrelevant_witness :
  perm_eq [:: Posz 0; Posz 1] [:: Posz 1; Posz 0] /\
  one_hot_encode id 0%N [:: Posz 0; Posz 1] false [:: ex_table] =
  one_hot_encode id 0%N [:: Posz 1; Posz 0] false [:: ex_table].
Proof.
split; first by [].
exact: (@one_hot_encode_order_irrelevant _ nat id [:: ex_table] 0%N
          [:: Posz 0; Posz 1] [:: Posz 1; Posz 0] false isT).
Defined.

(** X21 on the table: index 2 of two columns *)
Lemma one_hot_encode_index_too_large_witness :
  [/\ Posz 2 \in [:: Posz 0; Posz 2] & (ncols ex_table <= 2)%N] /\
  one_hot_encode id 0%N [:: Posz 0; Posz 2] true [:: ex_table] =
  (Raise IndexError, [:: ex_table; ex_table]).
Proof.
split; first by [].
exact: (@one_hot_encode_index_too_large _ nat id [:: ex_table] 0%N
          [:: Posz 0; Posz 2] true 2 isT isT).
Defined.

(** X22 on an array of two columns and no row *)
Lemma one_hot_encode_no_rows_witness :
  let A : ndarray nat := {| ncols := 2; rows := [::] |} in
  [/\ nrows A = 0%N & [:: Posz 1] != [::]] /\
  exists e,
    [/\ one_hot_encode id 0%N [:: Posz 1] false [:: A] = (Raise e, [:: A; A]),
        false -> e = IndexError &
        all (fun i : int => - 2%:Z <= i < 2%:Z)%R [:: Posz 1] ->
        e = ValueError].
Proof.
move=> A; split; first by [].
exact: (@one_hot_encode_no_rows _ nat id [:: A] 0%N [:: Posz 1] false
          (erefl _) isT).
Defined.

(** X23 on both columns of the table *)
Lemma one_hot_encode_shape_witness :
  [/\ well_shaped ex_table, (0 < nrows ex_table)%N, uniq [:: 1; 0]%N &
      all (fun k => k < ncols ex_table)%N [:: 1; 0]%N] /\
  exists h' X',
    [/\ one_hot_encode id 0%N [:: Posz 1; Posz 0] true [:: ex_table] =
          (Ret X', h'),
        well_shaped (deref h' X'),
        nrows (deref h' X') = 2%N &
        ncols (deref h' X') = 2%N].
Proof.
split; first by [].
have [h' [X' [runE shaped rowsE colsE]]] :=
  @one_hot_encode_shape _ nat id [:: ex_table] 0%N [:: 1; 0]%N true
    isT isT isT isT.
by exists h', X'; split=> //; rewrite colsE unlock.
Defined.

(** X24 on the first column of the table *)
Lemma one_hot_encode_decodes_witness :
  [/\ id 0%N != id 1%N, well_shaped ex_table, (0 < nrows ex_table)%N,
      uniq [:: 0]%N & all (fun k => k < ncols ex_table)%N [:: 0]%N] /\
  exists h' X',
    one_hot_encode id 0%N [:: Posz 0] false [:: ex_table] = (Ret X', h') /\
    nth 0%N [:: 5; 6]%N
      (index 1%N (take 2 (drop 0 (nth [::] (rows (deref h' X')) 1)))) = 6%N.
Proof.
split; first by [].
have [h' [X' [runE decodes]]] :=
  @one_hot_encode_decodes _ nat id [:: ex_table] 0%N [:: 0]%N
    isT isT isT isT isT.
by exists h', X'; split=> //; exact: (decodes 1%N 0%N isT isT).
Defined.

(** X25 on the first column of the table *)
Lemma one_hot_encode_dropped_level_witness :
  [/\ id 0%N != id 1%N, well_shaped ex_table, (0 < nrows ex_table)%N,
      uniq [:: 0]%N & all (fun k => k < ncols ex_table)%N [:: 0]%N] /\
  exists h' X',
    one_hot_encode id 0%N [:: Posz 0] true [:: ex_table] = (Ret X', h') /\
    all (pred1 0%N) (take 1 (drop 0 (nth [::] (rows (deref h' X')) 0))).
Proof.
split; first by [].
have [h' [X' [runE dropped]]] :=
  @one_hot_encode_dropped_level _ nat id [:: ex_table] 0%N [:: 0]%N
    isT isT isT isT isT.
exists h', X'; split=> //.
by have [_ ->] := dropped 0%N 0%N isT isT.
Defined.
